(** * claude-code-spawn: the process runner and its session logger

    A shallow embedding of [index.js] (runCommand) and [lib/logger.js]
    (class Logger, readFirstLine), and the properties of the
    specification that concern them.

    Conventions of the embedding.
    - JavaScript strings are [string]s of bytes, the UTF-8 of the text.
    - An object with optional keys is a record of [option] fields; an
      absent key (or [undefined]) is [None].
    - [process.env] and the [env] option are finite maps from variable
      names to values ([gmap string string]).
    - Node's built-ins that the sources call but do not define
      ([JSON.parse], [path.join]) are parameters of the sections below.
    - What the operating system decides (the outcome of [spawn], of
      [mkdir] and [appendFile], the events of the child and of the
      timer) is an explicit input: a [World] for the synchronous start
      of an invocation, a list of [Event]s for what follows. *)

From Stdlib Require Import ZArith NArith Ascii String.
From stdpp Require Import base option list strings pretty gmap sorting.

Local Open Scope string_scope.
Local Open Scope list_scope.
Set Warnings "-register-all,-abstract-large-number".

(** ** JavaScript primitives used by the sources *)

Module JS.

(** An [Error] object: its message and, for system errors, its [code]
    (['ENOENT'], ['ENOTDIR'], ...). *)
Record Error := mkError { message : string; code : option string }.

(** [new Error(msg)] *)
Definition new_Error (msg : string) : Error := mkError msg None.

(** A system error as [fs] and [child_process] raise them. *)
Definition system_error (c : string) (msg : string) : Error :=
  mkError msg (Some c).

(** Truthiness of a string: only the empty string is falsy. *)
Definition truthy (s : string) : bool :=
  match s with EmptyString => false | String _ _ => true end.

(** [a || b] on strings. *)
Definition or_else (a b : string) : string := if truthy a then a else b.

(** [a || b] where [a] may be [undefined]. *)
Definition or_default (a : option string) (b : string) : string :=
  match a with
  | Some s => or_else s b
  | None => b
  end.

(** [arr.join(sep)] *)
Fixpoint join (sep : string) (l : list string) : string :=
  match l with
  | [] => ""
  | [x] => x
  | x :: rest => x +:+ sep +:+ join sep rest
  end.

(** The line feed character. *)
Definition LF : ascii := Ascii.ascii_of_nat 10.

(** [s.split('\n')]: never empty, the pieces do not hold a line feed. *)
Fixpoint split_lines (s : string) : list string :=
  match s with
  | EmptyString => [EmptyString]
  | String c rest =>
      if Ascii.eqb c LF then EmptyString :: split_lines rest
      else match split_lines rest with
           | [] => [String c EmptyString]
           | l :: ls => String c l :: ls
           end
  end.

(** Whether [s] holds a line feed. *)
Fixpoint has_LF (s : string) : bool :=
  match s with
  | EmptyString => false
  | String c rest => Ascii.eqb c LF || has_LF rest
  end.

(** [s.split('\n')[0]]: what precedes the first line feed. *)
Definition first_line (s : string) : string :=
  default EmptyString (head (split_lines s)).

(** The chunks of a stream, put together again. *)
Definition glue (chunks : list string) : string :=
  foldr String.append EmptyString chunks.

(** The white space and line terminators of more than one byte, in the
    UTF-8 of the text: U+00A0 in two bytes; U+1680, U+2000 to U+200A,
    U+2028, U+2029, U+202F, U+205F, U+3000 and U+FEFF in three. Those
    of one byte are the six of [Ascii.is_space]. *)
Definition wide_space2 (a b : ascii) : bool :=
  (N_of_ascii a =? 194)%N && (N_of_ascii b =? 160)%N.

Definition wide_space3 (a b c : ascii) : bool :=
  let a := N_of_ascii a in
  let b := N_of_ascii b in
  let c := N_of_ascii c in
  ((a =? 225) && (b =? 154) && (c =? 128)
   || (a =? 226) && (b =? 128) && ((128 <=? c) && (c <=? 138))
   || (a =? 226) && (b =? 128) && ((c =? 168) || (c =? 169) || (c =? 175))
   || (a =? 226) && (b =? 129) && (c =? 159)
   || (a =? 227) && (b =? 128) && (c =? 128)
   || (a =? 239) && (b =? 187) && (c =? 191))%N.

(** The text without the white space it starts with. With [back] the
    text is read from its end, so the bytes of a character come in
    reverse. *)
Fixpoint strip (back : bool) (s : string) : string :=
  match s with
  | EmptyString => EmptyString
  | String c rest =>
      if Ascii.is_space c then strip back rest
      else
        match rest with
        | String c2 rest2 =>
            if (if back then wide_space2 c2 c else wide_space2 c c2)
            then strip back rest2
            else
              match rest2 with
              | String c3 rest3 =>
                  if (if back then wide_space3 c3 c2 c else wide_space3 c c2 c3)
                  then strip back rest3
                  else s
              | EmptyString => s
              end
        | EmptyString => s
        end
  end.

(** [s.trimStart()] and [s.trimEnd()] *)
Definition trimStart (s : string) : string := strip false s.
Definition trimEnd (s : string) : string :=
  String.rev (strip true (String.rev s)).

(** [s.trim()] *)
Definition trim (s : string) : string := trimEnd (trimStart s).

(** [s.endsWith(suffix)] *)
Definition endsWith (s suffix : string) : bool :=
  String.prefix (String.rev suffix) (String.rev s).

(** The order in which [sort] and [<] put two strings: that of their
    UTF-16 code units. On the UTF-8 of the text it is the order of the
    bytes, except that a character beyond U+FFFF (its first byte is 240
    or more) comes before the characters from U+E000 to U+FFFF (first
    byte 238 or 239), as its surrogates do. [unit_rank] puts the bytes
    in that order. *)
Definition unit_rank (c : ascii) : ascii :=
  let n := N_of_ascii c in
  if (n <? 238)%N then c
  else if (n <? 240)%N then ascii_of_N (n + 16)
  else ascii_of_N (n - 2).

Fixpoint unit_ranks (s : string) : string :=
  match s with
  | EmptyString => EmptyString
  | String c rest => String (unit_rank c) (unit_ranks rest)
  end.

Definition code_units_le (a b : string) : Prop :=
  String.le (unit_ranks a) (unit_ranks b).

Definition code_units_le_dec (a b : string) : Decision (code_units_le a b) :=
  decide (String.le (unit_ranks a) (unit_ranks b)).

(** [arr.sort()] on an array of strings: ascending. *)
Definition sort (l : list string) : list string :=
  @merge_sort string code_units_le code_units_le_dec l.

(** JSON values, as [JSON.parse] returns them. *)
Inductive json :=
| JNull
| JBool (b : bool)
| JNum (n : Z)
| JStr (s : string)
| JArr (items : list json)
| JObj (fields : list (string * json)).

(** The last binding of a key in an object (with a repeated key
    [JSON.parse] keeps the last one). *)
Fixpoint last_binding (key : string) (fields : list (string * json))
  : option json :=
  match fields with
  | [] => None
  | (k, v) :: rest =>
      match last_binding key rest with
      | Some v' => Some v'
      | None => if String.eqb k key then Some v else None
      end
  end.

(** Property access [v.key] for the keys the logger reads ([type],
    [sessionId], [command], [args], [timestamp]): a [TypeError] on
    [null], [undefined] on the other values that are not objects. *)
Inductive Access := TypeError | Value (v : option json).

Definition prop (v : json) (key : string) : Access :=
  match v with
  | JNull => TypeError
  | JObj fields => Value (last_binding key fields)
  | _ => Value None
  end.

(** [v === s] where [s] is a string and [v] may be [undefined]. *)
Definition strict_eq_string (v : option json) (s : string) : bool :=
  match v with
  | Some (JStr s') => String.eqb s' s
  | _ => false
  end.

(** The decimal digits. *)
Definition is_digit (c : ascii) : bool :=
  match Ascii.is_nat c with Some _ => true | None => false end.

Fixpoint all_digits (s : string) : bool :=
  match s with
  | EmptyString => true
  | String c rest => is_digit c && all_digits rest
  end.

(** A string interpolated in a template literal: numbers in decimal. *)
Definition show_Z (n : Z) : string := pretty n.
Definition show_N (n : N) : string := pretty n.

(** [`${v}`] for a number that may be [null]. *)
Definition show_nullable_Z (v : option Z) : string :=
  match v with Some n => show_Z n | None => "null" end.

Definition show_nullable (v : option string) : string :=
  match v with Some s => s | None => "null" end.

End JS.

(** ** The file system, as the logger sees it *)

Module FS.

(** What a path names. A directory lists the names of its entries. *)
Inductive node :=
| File (content : string)
| Dir (names : list string).

(** The file system maps paths to nodes; nothing ties the names a
    directory lists to the nodes of the paths below it, so that a file
    removed between [readdir] and its reading is a state of the model. *)
Definition t := gmap string node.

Inductive result (A : Type) :=
| Ok (a : A)
| Throw (e : JS.Error).
Arguments Ok {A} a.
Arguments Throw {A} e.

Definition ENOENT (p : string) : JS.Error :=
  JS.system_error "ENOENT" ("ENOENT: no such file or directory, " +:+ p).
Definition ENOTDIR (p : string) : JS.Error :=
  JS.system_error "ENOTDIR" ("ENOTDIR: not a directory, " +:+ p).
Definition EISDIR (p : string) : JS.Error :=
  JS.system_error "EISDIR" ("EISDIR: illegal operation on a directory, " +:+ p).

(** [readdir(p)] *)
Definition readdir (fs : gmap string node) (p : string) : result (list string) :=
  match fs !! p with
  | Some (Dir names) => Ok names
  | Some (File _) => Throw (ENOTDIR p)
  | None => Throw (ENOENT p)
  end.

(** [readFile(p, 'utf8')] *)
Definition readFile (fs : gmap string node) (p : string) : result string :=
  match fs !! p with
  | Some (File content) => Ok content
  | Some (Dir _) => Throw (EISDIR p)
  | None => Throw (ENOENT p)
  end.

(** The size of the chunks a read stream delivers (64 KiB). *)
Definition highWaterMark : nat := 65536.

(** The chunks of a read stream over [s]: groups of [hwm] characters,
    the last one shorter; none for the empty file. [room] is what is
    left of the current chunk, [cur] the current chunk, reversed. *)
Fixpoint chunks_go (hwm room : nat) (cur : string) (s : string) : list string :=
  match s with
  | EmptyString =>
      match cur with EmptyString => [] | _ => [String.rev cur] end
  | String c rest =>
      match room with
      | O => String.rev cur :: chunks_go hwm (pred hwm) (String c EmptyString) rest
      | S room' => chunks_go hwm room' (String c cur) rest
      end
  end.

Definition chunks (s : string) : list string :=
  chunks_go highWaterMark highWaterMark EmptyString s.

(** [fs.createReadStream(p, { encoding: 'utf8' })]: the chunks of the
    ['data'] events, or the ['error'] event. *)
Definition createReadStream (fs : gmap string node) (p : string)
  : result (list string) :=
  match readFile fs p with
  | Ok content => Ok (chunks content)
  | Throw e => Throw e
  end.

End FS.

(** ** lib/logger.js: reading the logs back *)

Module LogReader.

Import JS FS.

(** An entry of the index [getRecentSessions] builds; the first four
    fields are whatever the parsed first line holds under these keys. *)
Record Session := mkSession {
  sessionId : option json;
  command : option json;
  args : option json;
  timestamp : option json;
  logFile : string
}.

(** [readFirstLine]: the handlers of the read stream. The ['data']
    handler appends to [firstLine] what precedes the first line feed of
    the chunk and, when the chunk holds a line feed, destroys the
    stream and resolves; the ['end'] handler resolves with [firstLine]. *)
Fixpoint readFirstLine_data (firstLine : string) (stream : list string) : string :=
  match stream with
  | [] => firstLine
  | chunk :: later =>
      let lines := split_lines chunk in
      let firstLine := firstLine +:+ default EmptyString (head lines) in
      if decide (1 < length lines)%nat then firstLine
      else readFirstLine_data firstLine later
  end.

Definition readFirstLine (fs : gmap string node) (filePath : string) : result string :=
  match createReadStream fs filePath with
  | Ok stream => Ok (readFirstLine_data EmptyString stream)
  | Throw e => Throw e
  end.

(** How a loop body of [getRecentSessions] ends: the loop goes on, the
    function returns, or an exception leaves for the [catch]. *)
Inductive Flow :=
| Next (sessions : list Session)
| Return (sessions : list Session)
| Raise (sessions : list Session) (e : Error).

Section Reader.

(** [JSON.parse]: [None] when it throws a [SyntaxError]. *)
Variable JSON_parse : string -> option json.
(** [path.join] of two segments. *)
Variable path_join : string -> string -> string.

(** The body of the inner loop, for one [file] of [dateDir]. *)
Definition visit_file (fs : gmap string node) (limit : nat) (dateDir : string)
    (sessions : list Session) (file : string) : Flow :=
  if endsWith file ".log" then
    let logPath := path_join dateDir file in
    match readFirstLine fs logPath with
    | Throw e => Raise sessions e
    | Ok firstLine =>
        if truthy firstLine then
          match JSON_parse firstLine with
          | None => Next sessions                       (* catch (e): skip *)
          | Some sessionStart =>
              match prop sessionStart "type" with
              | TypeError => Next sessions              (* catch (e): skip *)
              | Value ty =>
                  if strict_eq_string ty "session_start" then
                    let get k := match prop sessionStart k with
                                 | Value v => v | TypeError => None end in
                    let sessions := sessions ++
                      [mkSession (get "sessionId") (get "command") (get "args")
                                 (get "timestamp") logPath] in
                    if decide (limit <= length sessions)%nat
                    then Return sessions
                    else Next sessions
                  else Next sessions
              end
          end
        else Next sessions
    end
  else Next sessions.

(** [for (const file of files.sort().reverse())] *)
Fixpoint visit_files (fs : gmap string node) (limit : nat) (dateDir : string)
    (sessions : list Session) (files : list string) : Flow :=
  match files with
  | [] => Next sessions
  | file :: rest =>
      match visit_file fs limit dateDir sessions file with
      | Next sessions => visit_files fs limit dateDir sessions rest
      | stop => stop
      end
  end.

(** The body of the outer loop, for one [date] of [logsPath]. *)
Definition visit_date (fs : gmap string node) (limit : nat) (logsPath : string)
    (sessions : list Session) (date : string) : Flow :=
  let dateDir := path_join logsPath date in
  match readdir fs dateDir with
  | Throw e => Raise sessions e
  | Ok files => visit_files fs limit dateDir sessions (reverse (sort files))
  end.

(** [for (const date of dates.sort().reverse())] *)
Fixpoint visit_dates (fs : gmap string node) (limit : nat) (logsPath : string)
    (sessions : list Session) (dates : list string) : Flow :=
  match dates with
  | [] => Next sessions
  | date :: rest =>
      match visit_date fs limit logsPath sessions date with
      | Next sessions => visit_dates fs limit logsPath sessions rest
      | stop => stop
      end
  end.

(** The default of [logDir]: [logDir || path.join(process.cwd(),
    'claude-spawn-logs')]. *)
Definition logs_path (cwd : string) (logDir : option string) : string :=
  match logDir with
  | Some d => if truthy d then d else path_join cwd "claude-spawn-logs"
  | None => path_join cwd "claude-spawn-logs"
  end.

(** [Logger.getRecentSessions(logDir, limit)]. The [catch] swallows an
    error whose code is ['ENOENT'] and rethrows any other; [sessions]
    is declared outside the [try], so what was pushed before a swallowed
    error is returned. [scan] is the [try] block. *)
Definition scan (fs : gmap string node) (limit : nat) (logsPath : string) : Flow :=
  match readdir fs logsPath with
  | Throw e => Raise [] e
  | Ok dates => visit_dates fs limit logsPath [] (reverse (sort dates))
  end.

Definition getRecentSessions (fs : gmap string node) (cwd : string)
    (logDir : option string) (limit : nat) : result (list Session) :=
  let logsPath := logs_path cwd logDir in
  match scan fs limit logsPath with
  | Next sessions => Ok sessions
  | Return sessions => Ok sessions
  | Raise sessions e =>
      if decide (code e = Some "ENOENT") then Ok sessions else Throw e
  end.

(** [sessions.find(s => s.sessionId === sessionId)] *)
Fixpoint find_session (sid : string) (sessions : list Session) : option Session :=
  match sessions with
  | [] => None
  | s :: rest =>
      if strict_eq_string (sessionId s) sid then Some s
      else find_session sid rest
  end.

(** The loop of [viewLog] over the lines: a line [JSON.parse] accepts is
    pushed, the others are skipped. *)
Fixpoint collect_logs (logs : list json) (lines : list string) : list json :=
  match lines with
  | [] => logs
  | line :: rest =>
      match JSON_parse line with
      | Some entry => collect_logs (logs ++ [entry]) rest
      | None => collect_logs logs rest
      end
  end.

(** The message of the error [viewLog] throws for an unknown session. *)
Definition not_found (sid : string) : Error :=
  new_Error ("Session " +:+ sid +:+ " not found").

(** [Logger.viewLog(sessionId, logDir)] *)
Definition viewLog (fs : gmap string node) (cwd : string)
    (sid : string) (logDir : option string) : result (list json) :=
  let logsPath := logs_path cwd logDir in
  match getRecentSessions fs cwd (Some logsPath) 100 with
  | Throw e => Throw e
  | Ok sessions =>
      match find_session sid sessions with
      | None => Throw (not_found sid)
      | Some session =>
          match readFile fs (logFile session) with
          | Throw e => Throw e
          | Ok content =>
              let lines := split_lines (trim content) in
              Ok (collect_logs [] lines)
          end
      end
  end.

End Reader.

(** The sessions a flow carries. *)
Definition sessions_of (f : Flow) : list Session :=
  match f with
  | Next sessions => sessions
  | Return sessions => sessions
  | Raise sessions _ => sessions
  end.



End LogReader.

(** ** lib/logger.js: the logger of one invocation *)

Module Logger.

Import JS.

(** The options of the constructor. *)
Record Options := mkOptions {
  opt_logDir : option string;
  opt_logLevel : option string;
  opt_saveLog : option bool;
  opt_logToConsole : option bool
}.

(** The fields of a [Logger]. *)
Record t := mkLogger {
  logDir : string;
  logLevel : string;
  saveLog : bool;
  logToConsole : bool;
  sessionId : string;
  logFile : option string;
  startTime : N
}.

(** [`${Date.now()}-${process.pid}`] *)
Definition make_sessionId (now pid : N) : string :=
  show_N now +:+ "-" +:+ show_N pid.

(** [x !== false] for an option that may be absent. *)
Definition not_false (x : option bool) : bool :=
  match x with Some false => false | _ => true end.

(** The entries [writeLog] is called with. The fields every line gets
    from the clock ([timestamp], [elapsed], [duration]) and those that
    describe the host ([nodeVersion], the [stack] of an error) are left
    out. *)
Inductive Entry :=
| session_start (sessionId command : string) (args : list string)
    (cwd : string) (pid : N)
| stdout_entry (data : string)
| stderr_entry (data : string)
| session_end (code : option Z) (signal : option string)
| error_entry (message : string).

(** The [type] field of an entry. *)
Definition type (e : Entry) : string :=
  match e with
  | session_start _ _ _ _ _ => "session_start"
  | stdout_entry _ => "stdout"
  | stderr_entry _ => "stderr"
  | session_end _ _ => "session_end"
  | error_entry _ => "error"
  end.

Section Paths.

Variable path_join : string -> string -> string.

(** [new Logger(options)], in a process whose working directory is
    [cwd] and whose id is [pid], when the clock reads [now] (the two
    readings of [Date.now()] in the constructor are taken to agree). *)
Definition new (cwd : string) (pid now : N) (options : Options) : t :=
  {| logDir := or_default (opt_logDir options) (path_join cwd "claude-spawn-logs");
     logLevel := or_default (opt_logLevel options) "full";
     saveLog := not_false (opt_saveLog options);
     logToConsole := not_false (opt_logToConsole options);
     sessionId := make_sessionId now pid;
     logFile := None;
     startTime := now |}.

(** The directory [initialize] makes, for the date [today]
    ([new Date().toISOString().split('T')[0]]). *)
Definition dateDir (lg : t) (today : string) : string :=
  path_join (logDir lg) today.

(** The assignment to [this.logFile] in [initialize]. *)
Definition open_logFile (lg : t) (today : string) : t :=
  {| logDir := logDir lg;
     logLevel := logLevel lg;
     saveLog := saveLog lg;
     logToConsole := logToConsole lg;
     sessionId := sessionId lg;
     logFile := Some (path_join (dateDir lg today)
                        ("session-" +:+ sessionId lg +:+ ".log"));
     startTime := startTime lg |}.

End Paths.

(** The guard of [writeLog]: [!this.saveLog || !this.logFile]. *)
Definition writes_nothing (lg : t) : bool :=
  negb (saveLog lg) ||
  match logFile lg with
  | Some p => negb (truthy p)
  | None => true
  end.

End Logger.

(** ** index.js: runCommand *)

Module Runner.

Import JS.

(** The host process: [process.cwd()], [process.env], [process.pid]. *)
Record Host := mkHost {
  process_cwd : string;
  process_env : gmap string string;
  process_pid : N
}.

(** The [stdio] option: a string or an array. *)
Inductive Stdio :=
| StdioString (s : string)
| StdioArray (l : list string).

(** [stdio === 'pipe'] *)
Definition is_pipe (s : Stdio) : bool :=
  match s with
  | StdioString s => String.eqb s "pipe"
  | StdioArray _ => false
  end.

(** The [options] argument; [None] is an absent key. *)
Record Options := mkOptions {
  opt_cwd : option string;
  opt_env : option (gmap string string);
  opt_detached : option bool;
  opt_stdio : option Stdio;
  opt_timeout : option Z;
  opt_logging : option bool;
  opt_saveLog : option bool;
  opt_logDir : option string;
  opt_logLevel : option string;
  opt_logToConsole : option bool
}.

(** [{}] *)
Definition no_options : Options :=
  mkOptions None None None None None None None None None None.

(** The constants the destructuring binds. *)
Record Config := mkConfig {
  cwd : string;
  env : gmap string string;
  detached : bool;
  stdio : Stdio;
  timeout : option Z;
  logging : bool;
  saveLog : bool;
  logDir : option string;
  logLevel : string;
  logToConsole : bool
}.

(** The destructuring of [options] with its defaults. *)
Definition destructure (host : Host) (options : Options) : Config :=
  let logging := default true (opt_logging options) in
  {| cwd := default (process_cwd host) (opt_cwd options);
     env := default (process_env host) (opt_env options);
     detached := default false (opt_detached options);
     stdio := default (StdioString "pipe") (opt_stdio options);
     timeout := opt_timeout options;
     logging := logging;
     saveLog := default false (opt_saveLog options);
     logDir := opt_logDir options;
     logLevel := default "full" (opt_logLevel options);
     logToConsole := default logging (opt_logToConsole options) |}.

(** The variable [delete cleanEnv.CLAUDECODE] removes. *)
Definition marker : string := "CLAUDECODE".

(** [const cleanEnv = { ...env }; delete cleanEnv.CLAUDECODE;] *)
Definition cleanEnv (env : gmap string string) : gmap string string :=
  delete marker env.

(** The arguments of the call to [spawn]. *)
Record SpawnCall := mkSpawnCall {
  sp_command : string;
  sp_args : list string;
  sp_cwd : string;
  sp_env : gmap string string;
  sp_detached : bool;
  sp_stdio : Stdio
}.

(** The [ChildProcess] that [spawn] returns: its [pid] ([undefined]
    when the system could not start it) and which of its streams are
    not [null]. *)
Record Child := mkChild {
  pid : option N;
  has_stdin : bool;
  has_stdout : bool;
  has_stderr : bool
}.

(** [spawn] returns a child or throws (a [TypeError] for arguments it
    refuses, such as an empty command). *)
Inductive SpawnResult :=
| SpawnReturns (c : Child)
| SpawnThrows (e : Error).

(** What the system answers while the executor of the promise runs. *)
Record World := mkWorld {
  now : N;                                 (* Date.now() *)
  today : string;                          (* the date of the ISO time *)
  mkdir : option Error;                    (* None: the directory is there *)
  first_write : option Error;              (* appendFile of session_start *)
  spawn : SpawnCall -> SpawnResult
}.

(** The object the promise resolves with; [None] is an absent key. *)
Record Result := mkResult {
  success : bool;
  r_stdout : option string;
  r_stderr : option string;
  r_code : option (option Z);              (* Some None: the key holds null *)
  r_pid : option N;
  r_detached : option bool;
  r_message : option string;
  r_sessionId : option string;
  r_logFile : option (option string)
}.

Inductive Promise :=
| Pending
| Resolved (r : Result)
| Rejected (e : Error).

(** A call of one of the two functions of the executor. *)
Inductive Settle :=
| resolve (r : Result)
| reject (e : Error).

(** [timeoutId]: never set, armed, cancelled by [clearTimeout], or
    fired. *)
Inductive Timer :=
| NoTimer
| Armed
| Cleared
| Fired.

Inductive Channel := process_stdout | process_stderr.

(** What waits for an [appendFile] to complete: the [.catch] of a chunk
    written without [await], or the rest of the ['exit'] or ['error']
    handler after its [await]. *)
Inductive Cont :=
| KCatch
| KExit (code : option Z) (signal : option string)
| KError (e : Error).

(** An [appendFile] that was called and has not completed. *)
Record Write := mkWrite {
  w_entry : Logger.Entry;
  w_then : Cont
}.

(** What one invocation can change after [spawn]. *)
Record State := mkState {
  stdout : string;
  stderr : string;
  timedOut : bool;
  timeoutId : Timer;
  promise : Promise;
  settles : list Settle;                   (* every call of resolve/reject *)
  kills : list string;                     (* signals sent to the child *)
  console : list (Channel * string);
  logfile : list Logger.Entry;             (* the lines of the log file *)
  writes : list Write;
  unhandled : list Error                   (* unhandled rejections *)
}.

(** What is fixed once the executor has run. *)
Record Invocation := mkInvocation {
  command : string;
  args : list string;
  config : Config;
  logger : Logger.t;
  spawned : option (SpawnCall * Child);    (* None: spawn was not reached or threw *)
  made_dir : option string;
  stdin_ended : bool;
  unrefd : bool
}.

(** *** Updates of the state *)

Definition set_stdout (v : string) (s : State) : State :=
  mkState v (stderr s) (timedOut s) (timeoutId s) (promise s) (settles s)
    (kills s) (console s) (logfile s) (writes s) (unhandled s).
Definition set_stderr (v : string) (s : State) : State :=
  mkState (stdout s) v (timedOut s) (timeoutId s) (promise s) (settles s)
    (kills s) (console s) (logfile s) (writes s) (unhandled s).
Definition set_timedOut (v : bool) (s : State) : State :=
  mkState (stdout s) (stderr s) v (timeoutId s) (promise s) (settles s)
    (kills s) (console s) (logfile s) (writes s) (unhandled s).
Definition set_timeoutId (v : Timer) (s : State) : State :=
  mkState (stdout s) (stderr s) (timedOut s) v (promise s) (settles s)
    (kills s) (console s) (logfile s) (writes s) (unhandled s).
Definition set_promise (v : Promise) (c : list Settle) (s : State) : State :=
  mkState (stdout s) (stderr s) (timedOut s) (timeoutId s) v c
    (kills s) (console s) (logfile s) (writes s) (unhandled s).
Definition set_kills (v : list string) (s : State) : State :=
  mkState (stdout s) (stderr s) (timedOut s) (timeoutId s) (promise s) (settles s)
    v (console s) (logfile s) (writes s) (unhandled s).
Definition set_console (v : list (Channel * string)) (s : State) : State :=
  mkState (stdout s) (stderr s) (timedOut s) (timeoutId s) (promise s) (settles s)
    (kills s) v (logfile s) (writes s) (unhandled s).
Definition set_logfile (v : list Logger.Entry) (s : State) : State :=
  mkState (stdout s) (stderr s) (timedOut s) (timeoutId s) (promise s) (settles s)
    (kills s) (console s) v (writes s) (unhandled s).
Definition set_writes (v : list Write) (s : State) : State :=
  mkState (stdout s) (stderr s) (timedOut s) (timeoutId s) (promise s) (settles s)
    (kills s) (console s) (logfile s) v (unhandled s).
Definition set_unhandled (v : list Error) (s : State) : State :=
  mkState (stdout s) (stderr s) (timedOut s) (timeoutId s) (promise s) (settles s)
    (kills s) (console s) (logfile s) (writes s) v.

(** The state when the executor starts. *)
Definition initial : State :=
  mkState "" "" false NoTimer Pending [] [] [] [] [] [].

(** *** The primitives of the handlers *)

(** A promise keeps its first settlement; later calls of [resolve] and
    [reject] have no effect on it. *)
Definition settle (o : Settle) (s : State) : State :=
  let p := match promise s with
           | Pending => match o with
                        | resolve r => Resolved r
                        | reject e => Rejected e
                        end
           | settled => settled
           end in
  set_promise p (settles s ++ [o]) s.

(** [process.stdout.write(text)] and [process.stderr.write(text)] *)
Definition write_to (ch : Channel) (text : string) (s : State) : State :=
  set_console (console s ++ [(ch, text)]) s.

(** [console.log(text)] and [console.error(text)] *)
Definition console_log (text : string) (s : State) : State :=
  write_to process_stdout (text +:+ String LF "") s.
Definition console_error (text : string) (s : State) : State :=
  write_to process_stderr (text +:+ String LF "") s.

(** [if (timeoutId) clearTimeout(timeoutId);] *)
Definition clearTimeout (s : State) : State :=
  match timeoutId s with
  | Armed => set_timeoutId Cleared s
  | _ => s
  end.

(** An [async] handler whose [await] rejects: nothing catches it. *)
Definition unhandled_rejection (e : Error) (s : State) : State :=
  set_unhandled (unhandled s ++ [e]) s.

(** The messages of the two errors [runCommand] makes. *)
Definition timeout_message (timeout : option Z) : string :=
  "Command timed out after " +:+ show_nullable_Z timeout +:+ "ms".

Definition failure_message (code : option Z) (stderr stdout : string) : string :=
  "Command failed with code " +:+ show_nullable_Z code +:+ ": "
    +:+ or_else stderr stdout.

(** [code === 0] *)
Definition is_zero (code : option Z) : bool :=
  match code with Some 0%Z => true | _ => false end.

(** [if (timeout)]: [null], [undefined] and [0] are falsy. *)
Definition timeout_set (timeout : option Z) : option Z :=
  match timeout with
  | Some 0%Z => None
  | other => other
  end.

(** *** The handlers of one invocation *)

Inductive Event :=
| EvStdout (data : string)                 (* 'data' of childProcess.stdout *)
| EvStderr (data : string)                 (* 'data' of childProcess.stderr *)
| EvError (e : Error)                      (* 'error' of childProcess *)
| EvExit (code : option Z) (signal : option string)
| EvTimeout                                (* the timer fires *)
| EvWritten (i : nat) (r : option Error).  (* the i-th pending appendFile
                                              completes; None: it succeeded *)

Section Handlers.

Variable inv : Invocation.

(** The ['exit'] handler from the line after its [await]. *)
Definition exit_resume (code : option Z) (signal : option string) (s : State) : State :=
  let cfg := config inv in
  let s := if logging cfg && negb (saveLog cfg)
           then console_log ("[Claude Spawn] Process exited with code "
                  +:+ show_nullable_Z code +:+ " and signal "
                  +:+ show_nullable signal) s
           else s in
  let result :=
    {| success := is_zero code;
       r_stdout := Some (stdout s);
       r_stderr := Some (stderr s);
       r_code := Some code;
       r_pid := match spawned inv with Some (_, c) => pid c | None => None end;
       r_detached := None;
       r_message := None;
       r_sessionId := if saveLog cfg then Some (Logger.sessionId (logger inv)) else None;
       r_logFile := if saveLog cfg then Some (Logger.logFile (logger inv)) else None |} in
  if is_zero code then settle (resolve result) s
  else settle (reject (new_Error (failure_message code (stderr s) (stdout s)))) s.

(** The ['error'] handler from the line after its [await]. *)
Definition error_resume (e : Error) (s : State) : State :=
  let cfg := config inv in
  let s := if logging cfg && negb (saveLog cfg)
           then console_error ("[Claude Spawn] Process error: " +:+ message e) s
           else s in
  settle (reject e) s.

(** What runs when an [appendFile] has completed with [r]. Only the
    writes of chunks have a [.catch]; a failed write that a handler
    awaits rejects the promise of that handler, which nobody holds. *)
Definition resume (k : Cont) (r : option Error) (s : State) : State :=
  match k, r with
  | KCatch, None => s
  | KCatch, Some e => console_error ("Log write error: " +:+ message e) s
  | KExit code signal, None => exit_resume code signal s
  | KError e, None => error_resume e s
  | KExit _ _, Some e => unhandled_rejection e s
  | KError _, Some e => unhandled_rejection e s
  end.

(** [Logger.writeLog]: nothing is written without a log file, and the
    caller goes on at once; otherwise [appendFile] is called. *)
Definition writeLog (entry : Logger.Entry) (k : Cont) (s : State) : State :=
  if Logger.writes_nothing (logger inv) then resume k None s
  else set_writes (writes s ++ [mkWrite entry k]) s.

(** [Logger.logStdout] and [Logger.logStderr] *)
Definition logStdout (text : string) (s : State) : State :=
  let s := if Logger.logToConsole (logger inv)
           then write_to process_stdout ("[stdout] " +:+ text) s else s in
  if String.eqb (Logger.logLevel (logger inv)) "full"
  then writeLog (Logger.stdout_entry text) KCatch s
  else s.

Definition logStderr (text : string) (s : State) : State :=
  let s := if Logger.logToConsole (logger inv)
           then write_to process_stderr ("[stderr] " +:+ text) s else s in
  if String.eqb (Logger.logLevel (logger inv)) "full"
  then writeLog (Logger.stderr_entry text) KCatch s
  else s.

(** [Logger.logExit] and [Logger.logError], with what follows their
    [await]. *)
Definition logExit (code : option Z) (signal : option string) (s : State) : State :=
  writeLog (Logger.session_end code signal) (KExit code signal) s.

Definition logError (e : Error) (s : State) : State :=
  writeLog (Logger.error_entry (message e)) (KError e) s.

(** The ['data'] handlers. *)
Definition on_stdout (data : string) (s : State) : State :=
  let cfg := config inv in
  let s := set_stdout (stdout s +:+ data) s in
  if saveLog cfg then logStdout data s
  else if logging cfg then write_to process_stdout ("[stdout] " +:+ data) s
  else s.

Definition on_stderr (data : string) (s : State) : State :=
  let cfg := config inv in
  let s := set_stderr (stderr s +:+ data) s in
  if saveLog cfg then logStderr data s
  else if logging cfg then write_to process_stderr ("[stderr] " +:+ data) s
  else s.

(** The callback of [setTimeout]. *)
Definition on_timeout (s : State) : State :=
  let s := set_timeoutId Fired s in
  let s := set_timedOut true s in
  let s := set_kills (kills s ++ ["SIGTERM"]) s in
  settle (reject (new_Error (timeout_message (timeout (config inv))))) s.

(** The ['error'] handler. *)
Definition on_error (e : Error) (s : State) : State :=
  let s := clearTimeout s in
  if saveLog (config inv) then logError e s else error_resume e s.

(** The ['exit'] handler. *)
Definition on_exit (code : option Z) (signal : option string) (s : State) : State :=
  let s := clearTimeout s in
  if timedOut s then s                      (* Already rejected *)
  else if saveLog (config inv) then logExit code signal s
  else exit_resume code signal s.

(** The completion of the [i]-th pending [appendFile]. *)
Definition on_written (i : nat) (w : Write) (r : option Error) (s : State) : State :=
  let s := set_writes (delete i (writes s)) s in
  let s := match r with
           | None => set_logfile (logfile s ++ [w_entry w]) s
           | Some _ => s
           end in
  resume (w_then w) r s.

(** One turn of the event loop. [None]: the event cannot occur, because
    there is no child, no handler for it, no armed timer or no such
    pending write. *)
Definition step (s : State) (ev : Event) : option State :=
  match spawned inv with
  | None => None
  | Some (_, child) =>
      match ev with
      | EvStdout data =>
          if is_pipe (stdio (config inv)) && has_stdout child
          then Some (on_stdout data s) else None
      | EvStderr data =>
          if is_pipe (stdio (config inv)) && has_stderr child
          then Some (on_stderr data s) else None
      | EvError e => Some (on_error e s)
      | EvExit code signal => Some (on_exit code signal s)
      | EvTimeout =>
          match timeoutId s with
          | Armed => Some (on_timeout s)
          | _ => None
          end
      | EvWritten i r =>
          match writes s !! i with
          | Some w => Some (on_written i w r s)
          | None => None
          end
      end
  end.

(** The events of a trace, in order. *)
Fixpoint run (s : State) (trace : list Event) : option State :=
  match trace with
  | [] => Some s
  | ev :: rest =>
      match step s ev with
      | Some s' => run s' rest
      | None => None
      end
  end.

End Handlers.


(** *** The executor of the promise *)

Section Executor.

Variable path_join : string -> string -> string.

(** How [logger.initialize] ends. *)
Inductive Init :=
| InitDone (lg : Logger.t) (dir : option string) (file : list Logger.Entry)
| InitThrows (lg : Logger.t) (dir : option string) (e : Error).

(** [Logger.initialize(command, args)] *)
Definition initialize (host : Host) (world : World) (lg : Logger.t)
    (command : string) (args : list string) : Init :=
  if negb (Logger.saveLog lg) then InitDone lg None []
  else
    match mkdir world with
    | Some e => InitThrows lg None e
    | None =>
        let dir := Logger.dateDir path_join lg (today world) in
        let lg := Logger.open_logFile path_join lg (today world) in
        if Logger.writes_nothing lg then InitDone lg (Some dir) []
        else
          match first_write world with
          | Some e => InitThrows lg (Some dir) e
          | None =>
              InitDone lg (Some dir)
                [Logger.session_start (Logger.sessionId lg) command args
                   (process_cwd host) (process_pid host)]
          end
    end.

(** The result a detached invocation resolves with. *)
Definition detached_result (child : Child) : Result :=
  {| success := true;
     r_stdout := None;
     r_stderr := None;
     r_code := None;
     r_pid := pid child;
     r_detached := Some true;
     r_message := Some "Process started in background";
     r_sessionId := None;
     r_logFile := None |}.

(** [runCommand(command, args, options)] up to the end of the executor:
    the invocation and its state when the event loop takes over. The
    executor is an [async] function: when it throws (in [initialize] or
    in [spawn]) its own promise is rejected, nobody holds it, and the
    promise [runCommand] returned stays pending. *)
Definition runCommand (host : Host) (world : World) (command : string)
    (args : list string) (options : Options) : Invocation * State :=
  let cfg := destructure host options in
  let clean := cleanEnv (env cfg) in
  let lg := Logger.new path_join (process_cwd host) (process_pid host) (now world)
              (Logger.mkOptions (logDir cfg) (Some (logLevel cfg))
                 (Some (saveLog cfg)) (Some (logToConsole cfg))) in
  let s := initial in
  let s := if logging cfg && negb (saveLog cfg)
           then console_log ("[Claude Spawn] Working directory: " +:+ cwd cfg)
                  (console_log ("[Claude Spawn] Executing: " +:+ command
                                  +:+ " " +:+ join " " args) s)
           else s in
  match (if saveLog cfg then initialize host world lg command args
         else InitDone lg None []) with
  | InitThrows lg dir e =>
      (mkInvocation command args cfg lg None dir false false,
       unhandled_rejection e s)
  | InitDone lg dir file =>
      let s := set_logfile file s in
      let call := mkSpawnCall command args (cwd cfg) clean (detached cfg) (stdio cfg) in
      match spawn world call with
      | SpawnThrows e =>
          (mkInvocation command args cfg lg None dir false false,
           unhandled_rejection e s)
      | SpawnReturns child =>
          let ended := String.eqb command "claude" && has_stdin child in
          let s := match timeout_set (timeout cfg) with
                   | Some _ => set_timeoutId Armed s
                   | None => s
                   end in
          let s := if detached cfg then settle (resolve (detached_result child)) s
                   else s in
          (mkInvocation command args cfg lg (Some (call, child)) dir ended
             (detached cfg), s)
      end
  end.

(** The state of an invocation after a trace of events. *)
Definition after (host : Host) (world : World) (command : string)
    (args : list string) (options : Options) (trace : list Event)
  : option State :=
  let '(inv, s) := runCommand host world command args options in
  run inv s trace.

End Executor.

End Runner.

(** ** Concrete hosts, worlds and invocations *)

Module Scenario.

Import JS Runner.

(** [path.join] on segments that are already normal. *)
Definition path_join (a b : string) : string := a +:+ "/" +:+ b.

(** A host whose environment holds the marker. *)
Definition host : Host :=
  mkHost "/home/dev/app"
    (<["PATH" := "/usr/bin"]> (<["CLAUDECODE" := "1"]> ∅)) 4242.

Definition child : Child := mkChild (Some 9001%N) true true true.

(** The error [spawn] throws for an empty command. *)
Definition ERR_INVALID_ARG_VALUE : Error :=
  system_error "ERR_INVALID_ARG_VALUE"
    "The argument 'file' cannot be empty. Received ''".

(** [spawn] as Node has it: an empty command is refused with a thrown
    [TypeError], any other command gets a child. *)
Definition node_spawn (call : SpawnCall) : SpawnResult :=
  if truthy (sp_command call) then SpawnReturns child
  else SpawnThrows ERR_INVALID_ARG_VALUE.

(** A world where the file system accepts every write. *)
Definition world : World :=
  mkWorld 1737450000000 "2025-01-21" None None node_spawn.

(** [{ env: { FOO: 'bar', CLAUDECODE: '1' } }] *)
Definition caller_env : gmap string string :=
  <["FOO" := "bar"]> (<["CLAUDECODE" := "1"]> ∅).

Definition with_env : Options :=
  mkOptions None (Some caller_env) None None None None None None None None.

(** Two invocations started in the same turn of the event loop, as in
    [Promise.all([runCommand('echo', ['a'], o), runCommand('echo',
    ['b'], o)])] with [o = { saveLog: true }]: the clock reads the same
    millisecond for both. *)
Definition persisted : Options :=
  mkOptions None None None None None None (Some true) None None None.

Definition first_of_two : Invocation * State :=
  runCommand path_join host world "echo" ["a"] persisted.

Definition second_of_two : Invocation * State :=
  runCommand path_join host world "echo" ["b"] persisted.

(** [runCommand('sleep', ['10'], { timeout: 50, logging: false })] *)
Definition sleep_options : Options :=
  mkOptions None None None None (Some 50%Z) (Some false) None None None None.

Definition sleep_10 : Invocation * State :=
  runCommand path_join host world "sleep" ["10"] sleep_options.

(** [runCommand('sh', ['-c', 'exit 3'], { detached: true, stdio:
    'ignore', logging: false })] *)
Definition background_options : Options :=
  mkOptions None None (Some true) (Some (StdioString "ignore")) None
    (Some false) None None None None.

Definition background : Invocation * State :=
  runCommand path_join host world "sh" ["-c"; "exit 3"] background_options.

(** [runCommand('', [], {})] *)
Definition empty_command : Invocation * State :=
  runCommand path_join host world "" [] no_options.

(** [runCommand('sh', ['-c', 'echo oops >&2; exit 3'], { logging:
    false })] *)
Definition quiet : Options :=
  mkOptions None None None None None (Some false) None None None None.

Definition failing : Invocation * State :=
  runCommand path_join host world "sh" ["-c"; "echo oops >&2; exit 3"] quiet.

(** [runCommand('sleep', ['10'], { timeout: 50, saveLog: true })] *)
Definition sleep_logged_options : Options :=
  mkOptions None None None None (Some 50%Z) None (Some true) None None None.

Definition sleep_logged : Invocation * State :=
  runCommand path_join host world "sleep" ["10"] sleep_logged_options.

(** [runCommand('echo', ['hello'], { saveLog: true })] *)
Definition echo_logged : Invocation * State :=
  runCommand path_join host world "echo" ["hello"] persisted.

(** The error of an [appendFile] on a full disk. *)
Definition ENOSPC : Error :=
  system_error "ENOSPC" "ENOSPC: no space left on device, write".

(** The events of [echo hello] under a logger: the chunk, its write,
    the exit, and the write of the session_end entry, which ends as
    [last] says. *)
Definition echo_events (last : option Error) : list Event :=
  [EvStdout ("hello" +:+ String LF ""); EvWritten 0 None;
   EvExit (Some 0%Z) None; EvWritten 0 last].

(** A world where the first write to the log fails. *)
Definition full_disk : World :=
  mkWorld 1737450000000 "2025-01-21" None (Some ENOSPC) node_spawn.

End Scenario.

(** ** A log directory with one session too many *)

Module Archive.

Import JS FS LogReader.

(** The double quote. *)
Definition DQ : ascii := Ascii.ascii_of_nat 34.

Definition quoted (s : string) : string :=
  String DQ s +:+ String DQ "".

(** [JSON.stringify] of an object whose values are strings without
    quotes or escapes. *)
Fixpoint members (fields : list (string * string)) : string :=
  match fields with
  | [] => ""
  | [(k, v)] => quoted k +:+ ":" +:+ quoted v
  | (k, v) :: rest => quoted k +:+ ":" +:+ quoted v +:+ "," +:+ members rest
  end.

Definition stringify (fields : list (string * string)) : string :=
  "{" +:+ members fields +:+ "}".

(** The text before the next double quote, and what follows it. *)
Fixpoint until_quote (s : string) : option (string * string) :=
  match s with
  | EmptyString => None
  | String c rest =>
      if Ascii.eqb c DQ then Some (EmptyString, rest)
      else match until_quote rest with
           | Some (text, after) => Some (String c text, after)
           | None => None
           end
  end.

(** The members of an object, up to its closing brace. *)
Fixpoint parse_members (fuel : nat) (s : string) : option (list (string * json)) :=
  match fuel with
  | O => None
  | S fuel =>
      match s with
      | String q rest =>
          if Ascii.eqb q DQ then
            match until_quote rest with
            | Some (k, String colon (String q' rest)) =>
                if Ascii.eqb colon ":" && Ascii.eqb q' DQ then
                  match until_quote rest with
                  | Some (v, String c EmptyString) =>
                      if Ascii.eqb c "}" then Some [(k, JStr v)] else None
                  | Some (v, String c rest) =>
                      if Ascii.eqb c "," then
                        match parse_members fuel rest with
                        | Some more => Some ((k, JStr v) :: more)
                        | None => None
                        end
                      else None
                  | _ => None
                  end
                else None
            | _ => None
            end
          else None
      | EmptyString => None
      end
  end.

(** [JSON.parse], on the texts [stringify] makes; [None] elsewhere. *)
Definition parse (s : string) : option json :=
  match s with
  | String c rest =>
      if Ascii.eqb c "{" then JObj <$> parse_members (String.length rest) rest
      else None
  | EmptyString => None
  end.

Definition path_join (a b : string) : string := a +:+ "/" +:+ b.

Definition cwd : string := "/home/dev/app".
Definition root : string := "/home/dev/app/claude-spawn-logs".
Definition day : string := "2025-01-21".

(** The id of the [i]-th session of the day. *)
Definition id (i : nat) : string :=
  Logger.make_sessionId (1737450000000 + N.of_nat i) 4242.

Definition file_name (i : nat) : string := "session-" +:+ id i +:+ ".log".

(** The file of a session: its three entries, and a line cut short
    between them. *)
Definition file_content (i : nat) : string :=
  stringify [("type", "session_start"); ("sessionId", id i); ("command", "echo")]
    +:+ String LF ""
    +:+ stringify [("type", "stdout"); ("data", "hello")] +:+ String LF ""
    +:+ "{" +:+ quoted "type" +:+ ":" +:+ String DQ "std" +:+ String LF ""
    +:+ stringify [("type", "session_end"); ("signal", "none")] +:+ String LF "".

(** 101 sessions in the directory of one day. *)
Definition disk : gmap string node :=
  list_to_map
    ((root, Dir [day])
     :: (path_join root day, Dir (file_name <$> seq 0 101))
     :: ((fun i => (path_join (path_join root day) (file_name i),
                    File (file_content i))) <$> seq 0 101)).

End Archive.

(** ** index.js: runClaude and runClaudeTask *)

Module Claude.

Import JS Runner.

(** The [options] of [runClaude]: the five keys it destructures and the
    keys of [...otherOptions] that [runCommand] reads. *)
Record Options := mkOptions {
  opt_cwd : option string;
  opt_dangerouslySkipPermissions : option bool;
  opt_detached : option bool;
  opt_fireAndForget : option bool;
  opt_logging : option bool;
  opt_env : option (gmap string string);
  opt_stdio : option Stdio;
  opt_timeout : option Z;
  opt_saveLog : option bool;
  opt_logDir : option string;
  opt_logLevel : option string;
  opt_logToConsole : option bool
}.

(** [{}] *)
Definition no_options : Options :=
  mkOptions None None None None None None None None None None None None.

(** [const args = ['-p']; if (dangerouslySkipPermissions)
    args.push('--dangerously-skip-permissions'); args.push(prompt);] *)
Definition claude_args (options : Options) (prompt : string) : list string :=
  let args := ["-p"] in
  let args := if default true (opt_dangerouslySkipPermissions options)
              then args ++ ["--dangerously-skip-permissions"] else args in
  args ++ [prompt].

(** The object [runClaude] passes to [runCommand]. In fire-and-forget
    mode it is [{ cwd, detached: true, stdio: 'ignore', logging,
    ...otherOptions }], otherwise [{ cwd, detached, logging,
    ...otherOptions }]; a key of [otherOptions] replaces the one
    written before the spread. *)
Definition command_options (host : Host) (options : Options) : Runner.Options :=
  let cwd := default (process_cwd host) (opt_cwd options) in
  let detached := default false (opt_detached options) in
  let logging := default true (opt_logging options) in
  if default false (opt_fireAndForget options) then
    Runner.mkOptions (Some cwd) (opt_env options) (Some true)
      (Some (default (StdioString "ignore") (opt_stdio options)))
      (opt_timeout options) (Some logging) (opt_saveLog options)
      (opt_logDir options) (opt_logLevel options) (opt_logToConsole options)
  else
    Runner.mkOptions (Some cwd) (opt_env options) (Some detached)
      (opt_stdio options)
      (opt_timeout options) (Some logging) (opt_saveLog options)
      (opt_logDir options) (opt_logLevel options) (opt_logToConsole options).


Section Calls.

Variable path_join : string -> string -> string.

(** [runClaude(prompt, options)] *)
Definition runClaude (host : Host) (world : World) (prompt : string)
    (options : Options) : Invocation * State :=
  runCommand path_join host world "claude" (claude_args options prompt)
    (command_options host options).


End Calls.

End Claude.

(** ** index.js, first version: runCommand without a session log *)

Module Legacy.

Import JS Runner.

(** The destructuring of the first [runCommand]: six keys. The fields
    of [Config] that belong to the session log are off. *)
Definition destructure (host : Host) (options : Runner.Options) : Config :=
  let logging := default true (Runner.opt_logging options) in
  {| cwd := default (process_cwd host) (Runner.opt_cwd options);
     env := default (process_env host) (Runner.opt_env options);
     detached := default false (Runner.opt_detached options);
     stdio := default (StdioString "pipe") (Runner.opt_stdio options);
     timeout := Runner.opt_timeout options;
     logging := logging;
     saveLog := false;
     logDir := None;
     logLevel := "full";
     logToConsole := false |}.

(** The first version has no logger; the invocation carries one that
    is switched off, which the handlers never consult. *)
Definition no_logger : Logger.t :=
  Logger.mkLogger "" "full" false false "" None 0.

(** The first [runCommand] up to the end of its executor. The executor
    is not [async]: what [spawn] throws rejects the promise. The
    environment goes to [spawn] as it is, and the handlers are those of
    [Runner.step] with [saveLog] off. *)
Definition runCommand (host : Host) (world : World) (command : string)
    (args : list string) (options : Runner.Options) : Invocation * State :=
  let cfg := destructure host options in
  let s := initial in
  let s := if logging cfg
           then console_log ("[Claude Spawn] Working directory: " +:+ cwd cfg)
                  (console_log ("[Claude Spawn] Executing: " +:+ command
                                  +:+ " " +:+ join " " args) s)
           else s in
  let call := mkSpawnCall command args (cwd cfg) (env cfg) (detached cfg) (stdio cfg) in
  match spawn world call with
  | SpawnThrows e =>
      (mkInvocation command args cfg no_logger None None false false,
       settle (reject e) s)
  | SpawnReturns child =>
      let s := match timeout_set (timeout cfg) with
               | Some _ => set_timeoutId Armed s
               | None => s
               end in
      let s := if detached cfg then settle (resolve (detached_result child)) s
               else s in
      (mkInvocation command args cfg no_logger (Some (call, child)) None false
         (detached cfg), s)
  end.

(** The handlers of the first version. It has no session log: the
    chunks are echoed under [logging] alone, the ['error'] and ['exit']
    handlers are not [async] and settle the promise in the turn of
    their event, and the result carries the five keys [success],
    [stdout], [stderr], [code] and [pid]. *)
Section Handlers.

Variable inv : Invocation.

(** The ['data'] handlers. *)
Definition on_stdout (data : string) (s : State) : State :=
  let s := set_stdout (stdout s +:+ data) s in
  if logging (config inv)
  then write_to process_stdout ("[stdout] " +:+ data) s
  else s.

Definition on_stderr (data : string) (s : State) : State :=
  let s := set_stderr (stderr s +:+ data) s in
  if logging (config inv)
  then write_to process_stderr ("[stderr] " +:+ data) s
  else s.

(** The callback of [setTimeout]. *)
Definition on_timeout (s : State) : State :=
  let s := set_timeoutId Fired s in
  let s := set_timedOut true s in
  let s := set_kills (kills s ++ ["SIGTERM"]) s in
  settle (reject (new_Error (timeout_message (timeout (config inv))))) s.

(** The ['error'] handler. *)
Definition on_error (e : Error) (s : State) : State :=
  let s := clearTimeout s in
  let s := if logging (config inv)
           then console_error ("[Claude Spawn] Process error: " +:+ message e) s
           else s in
  settle (reject e) s.

(** The ['exit'] handler. *)
Definition on_exit (code : option Z) (signal : option string) (s : State) : State :=
  let s := clearTimeout s in
  if timedOut s then s                      (* Already rejected *)
  else
    let s := if logging (config inv)
             then console_log ("[Claude Spawn] Process exited with code "
                    +:+ show_nullable_Z code +:+ " and signal "
                    +:+ show_nullable signal) s
             else s in
    if is_zero code then
      settle (resolve
                {| success := true;
                   r_stdout := Some (stdout s);
                   r_stderr := Some (stderr s);
                   r_code := Some code;
                   r_pid := match spawned inv with
                            | Some (_, c) => pid c
                            | None => None
                            end;
                   r_detached := None;
                   r_message := None;
                   r_sessionId := None;
                   r_logFile := None |}) s
    else settle (reject (new_Error (failure_message code (stderr s) (stdout s)))) s.

(** One turn of the event loop. The first version calls no
    [appendFile], so none ever completes. *)
Definition step (s : State) (ev : Event) : option State :=
  match spawned inv with
  | None => None
  | Some (_, child) =>
      match ev with
      | EvStdout data =>
          if is_pipe (stdio (config inv)) && has_stdout child
          then Some (on_stdout data s) else None
      | EvStderr data =>
          if is_pipe (stdio (config inv)) && has_stderr child
          then Some (on_stderr data s) else None
      | EvError e => Some (on_error e s)
      | EvExit code signal => Some (on_exit code signal s)
      | EvTimeout =>
          match timeoutId s with
          | Armed => Some (on_timeout s)
          | _ => None
          end
      | EvWritten _ _ => None
      end
  end.

(** The events of a trace, in order. *)
Fixpoint run (s : State) (trace : list Event) : option State :=
  match trace with
  | [] => Some s
  | ev :: rest =>
      match step s ev with
      | Some s' => run s' rest
      | None => None
      end
  end.

End Handlers.

End Legacy.

(** ** What a trace holds, and what a log directory offers *)

Module Observed.

Import JS FS Runner.

(** The chunks of the child's stdout in a trace, put together. *)
Fixpoint chunks_out (trace : list Event) : string :=
  match trace with
  | [] => ""
  | EvStdout data :: rest => data +:+ chunks_out rest
  | _ :: rest => chunks_out rest
  end.

(** The chunks of the child's stderr in a trace, put together. *)
Fixpoint chunks_err (trace : list Event) : string :=
  match trace with
  | [] => ""
  | EvStderr data :: rest => data +:+ chunks_err rest
  | _ :: rest => chunks_err rest
  end.

(** The entries that hold a chunk. *)
Definition is_chunk (e : Logger.Entry) : bool :=
  match e with
  | Logger.stdout_entry _ | Logger.stderr_entry _ => true
  | _ => false
  end.

(** The entry that opens a log. *)
Definition is_start (e : Logger.Entry) : bool :=
  match e with
  | Logger.session_start _ _ _ _ _ => true
  | _ => false
  end.

(** The text of a log file with these lines: [writeLog] ends every
    line with a line feed. *)
Definition log_text (lines : list string) : string :=
  foldr (fun line text => line +:+ String LF text) "" lines.

(** The first and the last character of a line. *)
Definition first_char (s : string) : option ascii :=
  match s with
  | EmptyString => None
  | String c _ => Some c
  end.

Fixpoint last_char (s : string) : option ascii :=
  match s with
  | EmptyString => None
  | String c EmptyString => Some c
  | String _ rest => last_char rest
  end.

(** A character of ASCII that is not white space. (A byte above 127
    is part of a longer character, which may be one of the white space
    characters of Unicode that [trim] takes as well.) *)
Definition solid (c : ascii) : bool :=
  negb (Ascii.is_space c) && (N_of_ascii c <? 128)%N.

(** A line as [JSON.stringify] makes it from an object: it holds no
    line feed and starts and ends on a character of ASCII that is not
    white space (a brace). *)
Definition tidy (line : string) : Prop :=
  has_LF line = false
  /\ (exists c, first_char line = Some c /\ solid c = true)
  /\ (exists c, last_char line = Some c /\ solid c = true).

Section Candidates.

Variable JSON_parse : string -> option json.
Variable path_join : string -> string -> string.

(** A session of the index that stands for a file: a file of the log
    directory named [*.log] whose first line is not empty and parses to
    an object of type session_start, from which the session has its
    fields. *)
Definition from_log_file (fs : gmap string node) (logsPath : string)
    (s : LogReader.Session) : Prop :=
  exists date file content start,
    LogReader.logFile s = path_join (path_join logsPath date) file
    /\ endsWith file ".log" = true
    /\ fs !! LogReader.logFile s = Some (File content)
    /\ truthy (first_line content) = true
    /\ JSON_parse (first_line content) = Some start
    /\ prop start "type" = Value (Some (JStr "session_start"))
    /\ prop start "sessionId" = Value (LogReader.sessionId s)
    /\ prop start "command" = Value (LogReader.command s)
    /\ prop start "args" = Value (LogReader.args s)
    /\ prop start "timestamp" = Value (LogReader.timestamp s).

(** The path of a log file, from the names of its date directory and
    of the file. *)
Definition log_path (logsPath : string) (k : string * string) : string :=
  path_join (path_join logsPath k.1) k.2.

(** A file [getRecentSessions] comes to: it is listed in a date
    directory that is listed in the log directory. *)
Definition listed (fs : gmap string node) (logsPath : string)
    (k : string * string) : Prop :=
  exists dates files,
    readdir fs logsPath = Ok dates /\ k.1 ∈ dates
    /\ readdir fs (path_join logsPath k.1) = Ok files /\ k.2 ∈ files.

(** A file that holds a session: it is named [*.log] and its first
    line is not empty and parses to an object of type session_start. *)
Definition session_file (fs : gmap string node) (logsPath : string)
    (k : string * string) : Prop :=
  endsWith k.2 ".log" = true
  /\ exists content start,
       fs !! log_path logsPath k = Some (File content)
       /\ truthy (first_line content) = true
       /\ JSON_parse (first_line content) = Some start
       /\ prop start "type" = Value (Some (JStr "session_start")).

(** The session of the index that stands for the file [k]. *)
Definition stands_for (fs : gmap string node) (logsPath : string)
    (k : string * string) (s : LogReader.Session) : Prop :=
  LogReader.logFile s = log_path logsPath k
  /\ endsWith k.2 ".log" = true
  /\ exists content start,
       fs !! log_path logsPath k = Some (File content)
       /\ truthy (first_line content) = true
       /\ JSON_parse (first_line content) = Some start
       /\ prop start "type" = Value (Some (JStr "session_start"))
       /\ prop start "sessionId" = Value (LogReader.sessionId s)
       /\ prop start "command" = Value (LogReader.command s)
       /\ prop start "args" = Value (LogReader.args s)
       /\ prop start "timestamp" = Value (LogReader.timestamp s).

(** A log directory as the logger leaves it: a directory of
    directories whose [*.log] entries are regular files, [readdir]
    giving every name once. *)
Definition log_tree (fs : gmap string node) (logsPath : string)
    (dates : list string) : Prop :=
  readdir fs logsPath = Ok dates
  /\ NoDup dates
  /\ forall date, date ∈ dates ->
       exists files,
         readdir fs (path_join logsPath date) = Ok files
         /\ NoDup files
         /\ forall file, file ∈ files -> endsWith file ".log" = true ->
              exists content,
                fs !! path_join (path_join logsPath date) file
                = Some (File content).

(** The files of the log directory in the order of the two loops, and
    what the body of the inner loop pushes for one of them. *)
Definition block (fs : gmap string node) (logsPath : string) (date : string)
  : list (string * string) :=
  match readdir fs (path_join logsPath date) with
  | Ok files => (fun file => (date, file)) <$> reverse (JS.sort files)
  | Throw _ => []
  end.

Definition walk (fs : gmap string node) (logsPath : string)
    (dates : list string) : list (string * string) :=
  date ← reverse (JS.sort dates); block fs logsPath date.

Definition pushed (fs : gmap string node) (logsPath : string)
    (k : string * string) : list LogReader.Session :=
  LogReader.sessions_of
    (LogReader.visit_file JSON_parse path_join fs 0
       (path_join logsPath k.1) [] k.2).

End Candidates.

(** Names in the order of [sort]: [a] comes before [b]. *)
Definition before (a b : string) : Prop := code_units_le a b /\ a <> b.

(** The file [k1] is more recent than [k2] by its name: its date is
    later, or the date is the same and the file name is later. *)
Definition newer (k1 k2 : string * string) : Prop :=
  before k2.1 k1.1 \/ (k1.1 = k2.1 /\ before k2.2 k1.2).

(** The flow of a loop that has found the sessions [l], with the limit
    [n]. *)
Definition cut (n : nat) (l : list LogReader.Session) : LogReader.Flow :=
  if decide (n <= length l)%nat then LogReader.Return (take n l)
  else LogReader.Next l.

End Observed.

(** ** More invocations *)

Module Cases.

Import JS Runner.

(** [runCommand('sleep', ['60'], { detached: true, stdio: 'ignore',
    timeout: 1000, logging: false })] *)
Definition background_with_timeout : Runner.Options :=
  Runner.mkOptions None None (Some true) (Some (StdioString "ignore"))
    (Some 1000%Z) (Some false) None None None None.

(** [runCommand('make', [], { cwd: '/srv/build', saveLog: true,
    logLevel: 'minimal', logging: false })] *)
Definition minimal_log : Runner.Options :=
  Runner.mkOptions (Some "/srv/build") None None None None (Some false)
    (Some true) None (Some "minimal") None.

Definition make : Invocation * State :=
  runCommand Scenario.path_join Scenario.host Scenario.world "make" []
    minimal_log.



(** A world whose [spawn] throws for every command. *)
Definition no_spawn : World :=
  mkWorld 1737450000000 "2025-01-21" None None
    (fun _ => SpawnThrows Scenario.ERR_INVALID_ARG_VALUE).

End Cases.

(** * Properties *)

Import JS.

(** ** Facts on strings and numerals *)

Lemma all_digits_app (a b : string) :
  all_digits a = true -> all_digits b = true -> all_digits (a +:+ b) = true.
Proof.
  induction a as [|c a IH]; simpl; [done|].
  intros [Hc Ha]%andb_true_iff Hb. rewrite Hc; simpl. by apply IH.
Qed.

Lemma pretty_N_go_digits (x : N) (s : string) :
  all_digits s = true -> all_digits (pretty_N_go x s) = true.
Proof.
  revert s. induction (N.lt_wf_0 x) as [x _ IH]; intros s Hs.
  destruct (decide (x = 0%N)) as [->|Hx].
  - by rewrite pretty_N_go_0.
  - rewrite pretty_N_go_step by lia.
    apply IH; [apply N.div_lt; lia|].
    simpl. rewrite Hs, andb_true_r.
    unfold pretty_N_char. by repeat case_match.
Qed.

Lemma show_N_digits (x : N) : all_digits (show_N x) = true.
Proof.
  unfold show_N, pretty, pretty_N. case_decide; [done|].
  by apply pretty_N_go_digits.
Qed.

(** Two texts cut by a dash after their first run of digits have the
    same parts. *)
Lemma dash_separates (a b c d : string) :
  all_digits a = true -> all_digits c = true ->
  a +:+ "-" +:+ b = c +:+ "-" +:+ d -> a = c /\ b = d.
Proof.
  revert c. induction a as [|x a IH]; intros [|y c]; simpl.
  - intros _ _ [=]. done.
  - intros _ [Hy _]%andb_true_iff [= <- _]. done.
  - intros [Hx _]%andb_true_iff _ [= -> _]. done.
  - intros [_ Ha]%andb_true_iff [_ Hc]%andb_true_iff [= -> Heq].
    destruct (IH c Ha Hc Heq) as [-> ->]. done.
Qed.

(** ** Lines and chunks *)

Lemma append_cons (x : ascii) (a b : string) :
  String x a +:+ b = String x (a +:+ b).
Proof. reflexivity. Qed.

Lemma append_assoc (a b c : string) : (a +:+ b) +:+ c = a +:+ (b +:+ c).
Proof.
  induction a as [|x a IH]; [done|]. by rewrite !append_cons, IH.
Qed.

Lemma append_empty_r (a : string) : a +:+ "" = a.
Proof.
  induction a as [|x a IH]; [done|]. by rewrite append_cons, IH.
Qed.

Lemma split_lines_cons (s : string) :
  exists l ls, split_lines s = l :: ls.
Proof.
  induction s as [|c s (l & ls & IH)]; simpl; [by eexists _, _|].
  destruct (Ascii.eqb c LF); [by eexists _, _|].
  rewrite IH. by eexists _, _.
Qed.

(** A chunk splits in more than one piece exactly when it holds a line
    feed. *)
Lemma split_lines_more (s : string) :
  (1 < length (split_lines s))%nat <-> has_LF s = true.
Proof.
  induction s as [|c s IH]; simpl; [split; [lia | done]|].
  destruct (split_lines_cons s) as (l & ls & Hs). rewrite Hs in *.
  destruct (Ascii.eqb c LF); simpl in *; [split; [done | lia]|].
  done.
Qed.

Lemma first_line_whole (s : string) : has_LF s = false -> first_line s = s.
Proof.
  unfold first_line. induction s as [|c s IH]; simpl; [done|].
  destruct (Ascii.eqb c LF); simpl; [done|]. intros Hs.
  destruct (split_lines_cons s) as (l & ls & Hl). rewrite Hl in *.
  simpl in *. by rewrite IH.
Qed.

Lemma first_line_app (a b : string) :
  first_line (a +:+ b)
  = if has_LF a then first_line a else a +:+ first_line b.
Proof.
  unfold first_line. induction a as [|c a IH]; [done|].
  rewrite append_cons. simpl.
  destruct (Ascii.eqb c LF); simpl; [done|].
  destruct (split_lines_cons (a +:+ b)) as (l & ls & Hl).
  destruct (split_lines_cons a) as (l' & ls' & Hl').
  rewrite Hl, Hl' in *. simpl in *. rewrite IH.
  by destruct (has_LF a).
Qed.

(** The handlers of [readFirstLine] end with what precedes the first
    line feed of the stream, however the stream is cut in chunks. *)
Lemma readFirstLine_data_glue (firstLine : string) (stream : list string) :
  LogReader.readFirstLine_data firstLine stream
  = firstLine +:+ first_line (glue stream).
Proof.
  revert firstLine. induction stream as [|chunk later IH]; intros firstLine; simpl.
  - unfold first_line. simpl. by rewrite append_empty_r.
  - fold (first_line chunk). rewrite first_line_app.
    destruct (decide (1 < length (split_lines chunk))%nat) as [Hm|Hm].
    + apply split_lines_more in Hm. by rewrite Hm.
    + assert (has_LF chunk = false) as Hno.
      { destruct (has_LF chunk) eqn:E; [|done].
        apply split_lines_more in E. done. }
      rewrite Hno, IH, (first_line_whole _ Hno). apply append_assoc.
Qed.

Lemma rev_app_append (a b c : string) :
  String.rev_app a b +:+ c = String.rev_app a (b +:+ c).
Proof.
  revert b. induction a as [|x a IH]; intros b; simpl; [done|].
  by rewrite IH.
Qed.

(** The chunks of a read stream make up the file. *)
Lemma chunks_go_glue (hwm room : nat) (cur s : string) :
  glue (FS.chunks_go hwm room cur s) = String.rev cur +:+ s.
Proof.
  revert room cur. induction s as [|c s IH]; intros room cur; simpl.
  - destruct cur; simpl; [done|]. by rewrite append_empty_r.
  - destruct room as [|room]; simpl; rewrite IH.
    + done.
    + unfold String.rev. simpl. by rewrite !rev_app_append.
Qed.

Lemma readFirstLine_first_line (fs : gmap string FS.node) (p content : string) :
  fs !! p = Some (FS.File content) ->
  LogReader.readFirstLine fs p = FS.Ok (first_line content).
Proof.
  intros Hp. unfold LogReader.readFirstLine, FS.createReadStream, FS.readFile.
  rewrite Hp. f_equal. rewrite readFirstLine_data_glue. simpl.
  unfold FS.chunks. by rewrite chunks_go_glue.
Qed.

(** [sort] puts the names in ascending order and loses none. *)
Lemma code_units_le_total (a b : string) :
  code_units_le a b \/ code_units_le b a.
Proof. apply (total String.le). Qed.

Lemma code_units_le_trans (a b c : string) :
  code_units_le a b -> code_units_le b c -> code_units_le a c.
Proof. unfold code_units_le. intros Hab Hbc. by etrans. Qed.

Lemma sort_sorted (l : list string) : Sorted code_units_le (JS.sort l).
Proof.
  apply (@Sorted_merge_sort _ code_units_le code_units_le_dec
           code_units_le_total).
Qed.

Lemma sort_permutation (l : list string) : JS.sort l ≡ₚ l.
Proof. apply merge_sort_Permutation. Qed.

(** ** The session id of a logger *)

Lemma make_sessionId_inj (t1 p1 t2 p2 : N) :
  Logger.make_sessionId t1 p1 = Logger.make_sessionId t2 p2 ->
  t1 = t2 /\ p1 = p2.
Proof.
  unfold Logger.make_sessionId. intros H.
  apply dash_separates in H as [Ht Hp]; try apply show_N_digits.
  split; [by apply (inj pretty) in Ht | by apply (inj pretty) in Hp].
Qed.

(** C9, as the code has it. The session ids of two loggers are equal
    exactly when the loggers were made in the same process (same pid)
    at the same reading of the millisecond clock: the id tells two
    invocations apart when they differ in one of the two, and only
    then. *)
Theorem C9_sessionId_distinct_iff (path_join : string -> string -> string)
    (cwd1 cwd2 : string) (pid1 pid2 now1 now2 : N)
    (o1 o2 : Logger.Options) :
  Logger.sessionId (Logger.new path_join cwd1 pid1 now1 o1)
    = Logger.sessionId (Logger.new path_join cwd2 pid2 now2 o2)
  <-> now1 = now2 /\ pid1 = pid2.
Proof.
  simpl. split.
  - apply make_sessionId_inj.
  - by intros [-> ->].
Qed.

(** C9, refuted as stated: two different invocations of one process
    that start within the same millisecond get the same session id, and
    with it the same log file. *)
Lemma C9_same_millisecond_same_id :
  let '(inv1, _) := Scenario.first_of_two in
  let '(inv2, _) := Scenario.second_of_two in
  Runner.args inv1 <> Runner.args inv2
  /\ Logger.sessionId (Runner.logger inv1) = Logger.sessionId (Runner.logger inv2)
  /\ Logger.logFile (Runner.logger inv1) = Logger.logFile (Runner.logger inv2)
  /\ is_Some (Logger.logFile (Runner.logger inv1)).
Proof. vm_compute. split; [congruence | eauto]. Qed.

(** ** The environment of the child *)

Section Environment.

Variable path_join : string -> string -> string.

Lemma runCommand_spawned host world command args options inv s call child :
  Runner.runCommand path_join host world command args options = (inv, s) ->
  Runner.spawned inv = Some (call, child) ->
  call = Runner.mkSpawnCall command args
           (Runner.cwd (Runner.destructure host options))
           (Runner.cleanEnv (Runner.env (Runner.destructure host options)))
           (Runner.detached (Runner.destructure host options))
           (Runner.stdio (Runner.destructure host options))
  /\ Runner.spawn world call = Runner.SpawnReturns child
  /\ Runner.config inv = Runner.destructure host options.
Proof.
  unfold Runner.runCommand. intros Hrun Hsp.
  destruct (if Runner.saveLog _ then _ else _) as [lg dir file|lg dir e];
    [|by simplify_eq/=].
  destruct (Runner.spawn world _) as [c|e] eqn:Hspawn; simplify_eq/=.
  done.
Qed.

(** C4, as the code has it. The environment handed to [spawn] is the
    caller's [env] when the options have one and [process.env]
    otherwise (the two are not merged), without the variable
    CLAUDECODE; so the child never sees the marker, whatever the
    caller supplied. *)
Theorem C4_child_env host world command args options inv s call child :
  Runner.runCommand path_join host world command args options = (inv, s) ->
  Runner.spawned inv = Some (call, child) ->
  Runner.sp_env call
    = delete "CLAUDECODE"
        (match Runner.opt_env options with
         | Some caller => caller
         | None => Runner.process_env host
         end)
  /\ Runner.sp_env call !! "CLAUDECODE" = None.
Proof.
  intros Hrun Hsp.
  destruct (runCommand_spawned _ _ _ _ _ _ _ _ _ Hrun Hsp) as (-> & _ & _).
  simpl. unfold Runner.cleanEnv, Runner.marker. split.
  - by destruct (Runner.opt_env options).
  - apply lookup_delete_eq.
Qed.

End Environment.

Lemma C4_child_env_witness :
  exists inv s call,
    Runner.runCommand Scenario.path_join Scenario.host Scenario.world
      "echo" ["hello"] Scenario.with_env = (inv, s)
    /\ Runner.spawned inv = Some (call, Scenario.child)
    /\ Runner.sp_env call = delete "CLAUDECODE" Scenario.caller_env
    /\ Runner.sp_env call !! "CLAUDECODE" = None.
Proof.
  eexists _, _, _. split; [reflexivity|]. split; [reflexivity|].
  exact (C4_child_env Scenario.path_join Scenario.host Scenario.world
           "echo" ["hello"] Scenario.with_env _ _ _ _ eq_refl eq_refl).
Defined.

(** C4, refuted as stated: with [env: { FOO: 'bar', CLAUDECODE: '1' }]
    in a process whose environment holds PATH, the child gets FOO only;
    the caller's environment merged over the defaults would also hold
    PATH. *)
Lemma C4_env_replaces_defaults :
  exists call,
    Runner.spawned
      (fst (Runner.runCommand Scenario.path_join Scenario.host Scenario.world
              "echo" ["hello"] Scenario.with_env))
      = Some (call, Scenario.child)
    /\ Runner.sp_env call !! "PATH" = None
    /\ delete "CLAUDECODE"
         (Scenario.caller_env ∪ Runner.process_env Scenario.host) !! "PATH"
       = Some "/usr/bin"
    /\ Runner.sp_env call
       <> delete "CLAUDECODE"
            (Scenario.caller_env ∪ Runner.process_env Scenario.host).
Proof.
  eexists. split; [reflexivity|].
  split; [by vm_compute|]. split; [by vm_compute|].
  intros H. apply (f_equal (.!! "PATH")) in H. vm_compute in H. discriminate.
Qed.

(** ** The handlers of runCommand *)

Import Runner.

(** Unfolds the handlers down to the updates of the state. *)
Ltac handlers :=
  unfold on_written, on_exit, on_error, on_timeout, on_stdout, on_stderr,
    logExit, logError, logStdout, logStderr, writeLog, resume,
    exit_resume, error_resume, unhandled_rejection, clearTimeout,
    console_log, console_error, write_to, settle in *.

Ltac crush_handlers :=
  handlers; repeat (case_match; simplify_eq/=); simpl in *; try done.

Section Invariants.

Variable inv : Invocation.

(** A property that every turn of the event loop keeps holds after a
    trace. *)
Lemma run_preserves (P : State -> Prop) :
  (forall s ev s', P s -> step inv s ev = Some s' -> P s') ->
  forall trace s s', P s -> run inv s trace = Some s' -> P s'.
Proof.
  intros Hstep trace. induction trace as [|ev trace IH]; simpl; intros s s' HP Hrun.
  - by simplify_eq.
  - destruct (step inv s ev) as [s1|] eqn:Hs; [|done]. eauto.
Qed.

Lemma run_app (t1 t2 : list Event) (s s1 s2 : State) :
  run inv s t1 = Some s1 -> run inv s1 t2 = Some s2 ->
  run inv s (t1 ++ t2) = Some s2.
Proof.
  revert s. induction t1 as [|ev t1 IH]; simpl; intros s H1 H2.
  - by simplify_eq.
  - destruct (step inv s ev); [eauto | done].
Qed.

(** A settled promise does not change. *)
Lemma step_keeps_settlement s ev s' :
  promise s <> Pending -> step inv s ev = Some s' -> promise s' = promise s.
Proof.
  intros Hp. unfold step.
  destruct (spawned inv) as [[call child]|]; [|done].
  destruct s; simpl in *.
  destruct ev; intros Hs; crush_handlers.
Qed.

Lemma run_keeps_settlement trace s s' :
  promise s <> Pending -> run inv s trace = Some s' -> promise s' = promise s.
Proof.
  intros Hp Hrun.
  apply (run_preserves (fun x => promise x = promise s)) with trace s; try done.
  intros s1 ev s2 Heq Hstep. rewrite <- Heq.
  apply step_keeps_settlement with ev; [congruence | done].
Qed.

(** No handler arms the timer. *)
Lemma step_never_arms s ev s' :
  timeoutId s <> Armed -> step inv s ev = Some s' -> timeoutId s' <> Armed.
Proof.
  intros Hp. unfold step.
  destruct (spawned inv) as [[call child]|]; [|done].
  destruct s; simpl in *.
  destruct ev; intros Hs; crush_handlers.
Qed.


(** What the continuation of a write leaves alone. *)
Lemma resume_frame k r s :
  timeoutId (resume inv k r s) = timeoutId s
  /\ timedOut (resume inv k r s) = timedOut s
  /\ writes (resume inv k r s) = writes s
  /\ logfile (resume inv k r s) = logfile s
  /\ kills (resume inv k r s) = kills s.
Proof. destruct s, k, r; crush_handlers. Qed.



End Invariants.

(** ** The executor *)

Section Start.

Variable path_join : string -> string -> string.

(** What the executor leaves behind. *)
Lemma runCommand_config host world command args options inv s :
  runCommand path_join host world command args options = (inv, s) ->
  config inv = destructure host options /\ Runner.command inv = command.
Proof.
  unfold runCommand. intros Hrun.
  destruct (if saveLog _ then _ else _) as [lg dir file|lg dir e];
    [|by simplify_eq/=].
  destruct (spawn world _) as [c|e]; by simplify_eq/=.
Qed.

Lemma runCommand_initial host world command args options inv s :
  runCommand path_join host world command args options = (inv, s) ->
  timedOut s = false /\ writes s = [] /\ kills s = []
  /\ stdout s = "" /\ stderr s = ""
  /\ (detached (config inv) = false -> promise s = Pending /\ settles s = [])
  /\ (forall call child, spawned inv = Some (call, child) ->
        timeoutId s = match timeout_set (timeout (config inv)) with
                      | Some _ => Armed
                      | None => NoTimer
                      end).
Proof.
  unfold runCommand. intros Hrun.
  destruct (if saveLog _ then _ else _) as [lg dir file|lg dir e].
  - destruct (spawn world _) as [c|e]; simplify_eq/=.
    + repeat split; crush_handlers.
      all: try (unfold set_timeoutId, set_logfile; repeat case_match; done).
    + repeat split; crush_handlers.
  - simplify_eq/=. repeat split; crush_handlers.
Qed.

End Start.

(** ** Timeout against exit *)

Section Timeout.

Variable path_join : string -> string -> string.






End Timeout.


(** ** Detached invocations *)

Section Detached.

Variable path_join : string -> string -> string.

(** C3. A detached invocation whose child was spawned is resolved when
    the executor ends, before any event of the child is handled: the
    child is spawned detached and unreferenced, and the result holds
    [success: true], the pid of the child and [detached: true], with no
    [stdout], [stderr] or [code] key; no later event changes it. *)
Theorem C3_detached_resolves_at_once host world command args options
    inv s0 call child :
  runCommand path_join host world command args options = (inv, s0) ->
  opt_detached options = Some true ->
  spawned inv = Some (call, child) ->
  sp_detached call = true /\ unrefd inv = true
  /\ exists r,
       promise s0 = Resolved r /\ settles s0 = [resolve r]
       /\ success r = true /\ r_pid r = pid child /\ r_detached r = Some true
       /\ r_stdout r = None /\ r_stderr r = None /\ r_code r = None
       /\ forall trace s, run inv s0 trace = Some s -> promise s = Resolved r.
Proof.
  intros Hrun Hdet Hsp.
  destruct (runCommand_spawned _ _ _ _ _ _ _ _ _ _ Hrun Hsp) as (-> & Hw & Hcfg).
  unfold runCommand in Hrun.
  destruct (if saveLog _ then _ else _) as [lg dir file|lg dir e];
    [|by simplify_eq/=].
  rewrite Hw in Hrun. simplify_eq/=.
  rewrite Hdet; simpl.
  split; [done|]. split; [done|].
  match goal with |- context [settle _ ?sb] => set (s1 := sb) end.
  assert (promise s1 = Pending /\ settles s1 = []) as [Hp1 Hs1]
    by (subst s1; split; crush_handlers).
  assert (promise (settle (resolve (detached_result child)) s1)
          = Resolved (detached_result child)) as Hres
    by (unfold settle; simpl; by rewrite Hp1).
  exists (detached_result child).
  split; [done|]. split; [by unfold settle; simpl; rewrite Hs1|].
  repeat split; try done.
  intros trace s Hrun.
  match type of Hrun with run ?i ?s0 _ = _ =>
    rewrite (run_keeps_settlement i trace s0 s); [done|by rewrite Hres|done]
  end.
Qed.

End Detached.

Lemma C3_detached_resolves_at_once_witness :
  exists r,
    promise (snd Scenario.background) = Resolved r
    /\ r_pid r = Some 9001%N /\ r_stdout r = None /\ r_code r = None.
Proof.
  destruct (C3_detached_resolves_at_once Scenario.path_join Scenario.host
              Scenario.world "sh" ["-c"; "exit 3"] Scenario.background_options
              (fst Scenario.background) (snd Scenario.background)
              _ Scenario.child eq_refl eq_refl eq_refl)
    as (_ & _ & r & Hp & _ & _ & Hpid & _ & Hout & _ & Hcode & _).
  exists r. repeat split; assumption.
Defined.

(** ** The command *)

Section Command.

Variable path_join : string -> string -> string.

(** Without a child no event reaches the invocation. *)
Lemma run_without_child inv s trace s' :
  spawned inv = None -> run inv s trace = Some s' -> trace = [] /\ s' = s.
Proof.
  intros Hsp. destruct trace as [|ev trace]; simpl.
  - intros [= <-]. done.
  - unfold step. by rewrite Hsp.
Qed.

End Command.

(** C5, the code at an empty command: [runCommand('', [], {})]. The
    command is not looked at and reaches [spawn], which throws. The
    throw happens inside the [async] executor, whose own promise takes
    the error and nobody holds it: the call is not rejected, its
    promise stays pending whatever happens later (no child exists, so
    no event can settle it) and the error is an unhandled rejection.
    The first version of [runCommand], whose executor is not [async],
    rejects the call with the error of [spawn] on the same input. *)
Theorem C5_empty_command_is_not_rejected :
  let '(inv, s0) := Scenario.empty_command in
  command inv = "" /\ spawned inv = None
  /\ promise s0 = Pending /\ settles s0 = []
  /\ unhandled s0 = [Scenario.ERR_INVALID_ARG_VALUE]
  /\ (forall trace s, run inv s0 trace = Some s -> promise s = Pending)
  /\ promise (Legacy.runCommand Scenario.host Scenario.world "" []
                no_options).2
     = Rejected Scenario.ERR_INVALID_ARG_VALUE.
Proof.
  destruct Scenario.empty_command as [inv s0] eqn:Heq.
  vm_compute in Heq. simplify_eq.
  repeat split; try reflexivity.
  intros trace s Hrun. apply run_without_child in Hrun as [_ ->]; done.
Qed.

(** ** Exit with a code other than zero *)

Section Failure.

Variable path_join : string -> string -> string.

(** A call is only ever resolved with [success: true]. *)
Lemma step_resolves_success inv s ev s' :
  (forall r, promise s = Resolved r -> success r = true) ->
  step inv s ev = Some s' ->
  forall r, promise s' = Resolved r -> success r = true.
Proof.
  intros Hinv. unfold step.
  destruct (spawned inv) as [[call child]|]; [|done].
  destruct s as [out err tO tid p st ks con lf ws un]; simpl in *.
  destruct ev; intros Hs r0 Hr; crush_handlers; eauto.
Qed.

Lemma exit_resume_rejects inv n signal s :
  n <> 0%Z -> promise s = Pending ->
  promise (exit_resume inv (Some n) signal s)
  = Rejected (new_Error (failure_message (Some n) (stderr s) (stdout s))).
Proof. intros Hn Hp. destruct s, n; crush_handlers. Qed.

Lemma failure_message_text n err out :
  failure_message (Some n) err out
  = "Command failed with code " +:+ pretty n +:+ ": "
      +:+ (if decide (err = "") then out else err).
Proof.
  unfold failure_message, or_else. simpl. unfold show_Z.
  by destruct err.
Qed.

(** C2, as the code has it. At any moment of any invocation: (1) a
    resolved call has [success: true]; (2) when the child exits with a
    code other than zero while the call is pending and has not timed
    out, the call is rejected with "Command failed with code <code>:
    <stderr, or stdout when stderr is empty>" at once, unless the
    logger has a session_end entry to write first, in which case the
    call stays pending on that write; (3) when that write succeeds the
    pending call is rejected with the same message, made from what is
    captured by then. *)
Theorem C2_nonzero_exit_rejects host world command args options
    inv s0 trace s n signal :
  runCommand path_join host world command args options = (inv, s0) ->
  run inv s0 trace = Some s ->
  n <> 0%Z ->
  (forall r, promise s = Resolved r -> success r = true)
  /\ (forall s1,
        promise s = Pending -> timedOut s = false ->
        step inv s (EvExit (Some n) signal) = Some s1 ->
        if saveLog (config inv) && negb (Logger.writes_nothing (logger inv))
        then promise s1 = Pending
             /\ writes s1 = writes s ++
                  [mkWrite (Logger.session_end (Some n) signal)
                     (KExit (Some n) signal)]
        else promise s1
             = Rejected (new_Error
                 ("Command failed with code " +:+ pretty n +:+ ": "
                    +:+ (if decide (stderr s = "") then stdout s else stderr s))))
  /\ (forall i entry s1,
        promise s = Pending ->
        writes s !! i = Some (mkWrite entry (KExit (Some n) signal)) ->
        step inv s (EvWritten i None) = Some s1 ->
        promise s1
        = Rejected (new_Error
            ("Command failed with code " +:+ pretty n +:+ ": "
               +:+ (if decide (stderr s = "") then stdout s else stderr s)))).
Proof.
  intros Hrun Htrace Hn. split; [|split].
  - apply (run_preserves inv
             (fun x => forall r, promise x = Resolved r -> success r = true))
      with trace s0; [| |done].
    + intros ????. by apply step_resolves_success.
    + unfold runCommand in Hrun.
      destruct (if saveLog _ then _ else _) as [lg dir file|lg dir e];
        [|simplify_eq/=; intros r Hr; crush_handlers].
      destruct (spawn world _) as [c|e]; simplify_eq/=; intros r Hr;
        crush_handlers.
  - intros s1 Hp HtO Hstep. unfold step in Hstep.
    destruct (spawned inv) as [[call child]|]; [|done]. simplify_eq.
    rewrite <- failure_message_text.
    unfold on_exit.
    assert (timedOut (clearTimeout s) = false /\ promise (clearTimeout s) = Pending
            /\ stderr (clearTimeout s) = stderr s
            /\ stdout (clearTimeout s) = stdout s
            /\ writes (clearTimeout s) = writes s) as (Ht & Hpc & He & Ho & Hw)
      by (destruct s; crush_handlers).
    rewrite Ht. unfold logExit, writeLog.
    destruct (saveLog (config inv)), (Logger.writes_nothing (logger inv)); simpl.
    + rewrite <- He, <- Ho. by apply exit_resume_rejects.
    + by rewrite Hw.
    + rewrite <- He, <- Ho. by apply exit_resume_rejects.
    + rewrite <- He, <- Ho. by apply exit_resume_rejects.
  - intros i entry s1 Hp Hw Hstep. unfold step in Hstep.
    destruct (spawned inv) as [[call child]|]; [|done].
    rewrite Hw in Hstep. simplify_eq.
    rewrite <- failure_message_text. unfold on_written; simpl.
    match goal with |- context [exit_resume _ _ _ ?x] => set (s2 := x) end.
    replace (stderr s) with (stderr s2) by (by destruct s).
    replace (stdout s) with (stdout s2) by (by destruct s).
    apply exit_resume_rejects; [done|]. by destruct s.
Qed.

End Failure.

Lemma C2_nonzero_exit_rejects_witness :
  exists s s1,
    run (fst Scenario.failing) (snd Scenario.failing) [EvStderr "oops"] = Some s
    /\ step (fst Scenario.failing) s (EvExit (Some 3%Z) None) = Some s1
    /\ promise s1 = Rejected (new_Error "Command failed with code 3: oops").
Proof.
  eexists _, _. split; [reflexivity|]. split; [reflexivity|].
  destruct (C2_nonzero_exit_rejects Scenario.path_join Scenario.host
              Scenario.world "sh" ["-c"; "echo oops >&2; exit 3"] Scenario.quiet
              (fst Scenario.failing) (snd Scenario.failing)
              [EvStderr "oops"] _ 3%Z None eq_refl eq_refl ltac:(discriminate))
    as (_ & Hexit & _).
  exact (Hexit _ eq_refl eq_refl eq_refl).
Defined.

(** C2, refuted as stated: the child of a detached invocation exits
    with code 3 and the call is not rejected. It was resolved with
    [success: true] when the child was spawned, and the [reject] of the
    exit handler comes second. *)
Lemma C2_detached_failure_stays_resolved :
  exists s r,
    run (fst Scenario.background) (snd Scenario.background)
      [EvExit (Some 3%Z) None] = Some s
    /\ timedOut s = false
    /\ promise s = Resolved r /\ success r = true
    /\ settles s
       = [resolve r; reject (new_Error "Command failed with code 3: ")].
Proof. eexists _, _. repeat split; reflexivity. Qed.

(** ** The session log *)

(** C6, the code at a timeout: [runCommand('sleep', ['10'], { timeout:
    50, saveLog: true })], whose timer fires and whose child then exits
    on the SIGTERM. The call is rejected for the timeout and the log is
    left with its session_start entry alone: the callback of the timer
    writes nothing, the exit handler returns before [logExit], and no
    write is pending. *)
Theorem C6_timeout_leaves_log_open :
  let '(inv, s0) := Scenario.sleep_logged in
  exists s,
    run inv s0 [EvTimeout; EvExit None (Some "SIGTERM")] = Some s
    /\ promise s = Rejected (new_Error "Command timed out after 50ms")
    /\ Logger.type <$> logfile s0 = ["session_start"]
    /\ Logger.type <$> logfile s = ["session_start"]
    /\ writes s = [].
Proof. vm_compute. eexists. repeat split; reflexivity. Qed.

(** C7, the code when a write of the log fails. With every write
    succeeding [runCommand('echo', ['hello'], { saveLog: true })] is
    resolved; when the write of the session_end entry fails, the same
    invocation with the same events is never settled: the exit handler
    stops at its [await], nothing is pending any more, and the error is
    an unhandled rejection. When the write of the session_start entry
    fails, the child is not even spawned. *)
Theorem C7_failed_write_changes_outcome :
  let '(inv, s0) := Scenario.echo_logged in
  (exists s r,
      run inv s0 (Scenario.echo_events None) = Some s
      /\ promise s = Resolved r /\ r_stdout r = Some ("hello" +:+ String LF ""))
  /\ (exists s,
        run inv s0 (Scenario.echo_events (Some Scenario.ENOSPC)) = Some s
        /\ promise s = Pending /\ settles s = [] /\ writes s = []
        /\ timeoutId s = NoTimer
        /\ unhandled s = [Scenario.ENOSPC])
  /\ (let '(inv', s0') :=
        runCommand Scenario.path_join Scenario.host Scenario.full_disk
          "echo" ["hello"] Scenario.persisted in
      spawned inv' = None /\ promise s0' = Pending
      /\ unhandled s0' = [Scenario.ENOSPC]).
Proof.
  vm_compute. split; [|split].
  - eexists _, _. repeat split; reflexivity.
  - eexists. repeat split; reflexivity.
  - repeat split; reflexivity.
Qed.

(** ** Chunks of output under a logger *)

Section Chunks.

Variable path_join : string -> string -> string.

(** The logger of an invocation has the settings of its options. *)
Lemma runCommand_logger host world command args options inv s :
  runCommand path_join host world command args options = (inv, s) ->
  Logger.saveLog (logger inv) = saveLog (config inv)
  /\ Logger.logToConsole (logger inv) = logToConsole (config inv)
  /\ Logger.logLevel (logger inv) = or_else (logLevel (config inv)) "full".
Proof.
  unfold runCommand. intros Hrun.
  destruct (saveLog (destructure host options)) eqn:Hsave.
  - unfold initialize in Hrun. simpl in Hrun.
    repeat (case_match; simplify_eq/=);
      rewrite ?Hsave; repeat split; by repeat case_match.
  - repeat (case_match; simplify_eq/=);
      rewrite ?Hsave; repeat split; by repeat case_match.
Qed.

(** C8, as the code has it. With [saveLog: true], a chunk of the
    child's stdout (and likewise of its stderr) is added to the
    captured output and handed to the logger, which echoes it to the
    console when [logToConsole] is on (by default it is what [logging]
    is, and that is on by default) and calls for its write to the log
    when [logLevel] is 'full' and the log file is open; the chunk is
    echoed at most once. When the write of a chunk completes, the
    entry is in the log if it succeeded, and the settlement of the call
    is what it was either way. *)
Theorem C8_chunk_goes_to_logger host world command args options
    inv s0 trace s :
  runCommand path_join host world command args options = (inv, s0) ->
  opt_saveLog options = Some true ->
  run inv s0 trace = Some s ->
  let echoed := default (default true (opt_logging options))
                  (opt_logToConsole options) in
  let written :=
    String.eqb (or_else (default "full" (opt_logLevel options)) "full") "full"
    && negb (Logger.writes_nothing (logger inv)) in
  (forall data s1, step inv s (EvStdout data) = Some s1 ->
     stdout s1 = stdout s +:+ data
     /\ console s1 = console s ++
          (if echoed then [(process_stdout, "[stdout] " +:+ data)] else [])
     /\ writes s1 = writes s ++
          (if written then [mkWrite (Logger.stdout_entry data) KCatch] else [])
     /\ logfile s1 = logfile s /\ promise s1 = promise s)
  /\ (forall data s1, step inv s (EvStderr data) = Some s1 ->
     stderr s1 = stderr s +:+ data
     /\ console s1 = console s ++
          (if echoed then [(process_stderr, "[stderr] " +:+ data)] else [])
     /\ writes s1 = writes s ++
          (if written then [mkWrite (Logger.stderr_entry data) KCatch] else [])
     /\ logfile s1 = logfile s /\ promise s1 = promise s)
  /\ (forall i entry r s1,
        writes s !! i = Some (mkWrite entry KCatch) ->
        step inv s (EvWritten i r) = Some s1 ->
        logfile s1 = logfile s ++ (if r is None then [entry] else [])
        /\ promise s1 = promise s).
Proof.
  intros Hrun Hsave _.
  destruct (runCommand_logger _ _ _ _ _ _ _ Hrun) as (_ & HtoC & Hlevel).
  destruct (runCommand_config _ _ _ _ _ _ _ _ Hrun) as (Hcfg & _).
  assert (saveLog (config inv) = true) as Hs
    by (rewrite Hcfg; unfold destructure; simpl; by rewrite Hsave).
  assert (logToConsole (config inv)
          = default (default true (opt_logging options))
              (opt_logToConsole options)) as HtoC'
    by (by rewrite Hcfg).
  assert (logLevel (config inv) = default "full" (opt_logLevel options))
    as Hlevel' by (by rewrite Hcfg).
  rewrite HtoC' in HtoC. rewrite Hlevel' in Hlevel.
  simpl. split; [|split].
  - intros data s1 Hstep. unfold step in Hstep.
    destruct (spawned inv) as [[call child]|]; [|done].
    destruct (_ && _); [|done]. simplify_eq.
    unfold on_stdout. rewrite Hs. unfold logStdout, writeLog.
    rewrite HtoC, Hlevel.
    destruct s; simpl.
    destruct (default _ (opt_logToConsole options)),
      (String.eqb _ "full"), (Logger.writes_nothing (logger inv));
      simpl; rewrite ?app_nil_r; done.
  - intros data s1 Hstep. unfold step in Hstep.
    destruct (spawned inv) as [[call child]|]; [|done].
    destruct (_ && _); [|done]. simplify_eq.
    unfold on_stderr. rewrite Hs. unfold logStderr, writeLog.
    rewrite HtoC, Hlevel.
    destruct s; simpl.
    destruct (default _ (opt_logToConsole options)),
      (String.eqb _ "full"), (Logger.writes_nothing (logger inv));
      simpl; rewrite ?app_nil_r; done.
  - intros i entry r s1 Hw Hstep. unfold step in Hstep.
    destruct (spawned inv) as [[call child]|]; [|done].
    rewrite Hw in Hstep. simplify_eq.
    destruct s, r; simpl; rewrite ?app_nil_r; done.
Qed.

End Chunks.

Lemma C8_chunk_goes_to_logger_witness :
  exists s1 s2,
    step (fst Scenario.echo_logged) (snd Scenario.echo_logged)
      (EvStdout "hello") = Some s1
    /\ console s1 = [(process_stdout, "[stdout] hello")]
    /\ writes s1 = [mkWrite (Logger.stdout_entry "hello") KCatch]
    /\ step (fst Scenario.echo_logged) s1 (EvWritten 0 None) = Some s2
    /\ Logger.type <$> logfile s2 = ["session_start"; "stdout"].
Proof.
  pose proof (C8_chunk_goes_to_logger Scenario.path_join Scenario.host
                Scenario.world "echo" ["hello"] Scenario.persisted
                (fst Scenario.echo_logged) (snd Scenario.echo_logged) []
                (snd Scenario.echo_logged) eq_refl eq_refl eq_refl)
    as (Hout & _ & _).
  eexists _, _. split; [reflexivity|].
  destruct (Hout "hello" _ eq_refl) as (_ & Hc & Hw & _).
  split; [exact Hc|]. split; [exact Hw|].
  split; reflexivity.
Defined.

(** C8, refuted as stated: under [{ saveLog: true }] alone, the chunk
    "hello" is echoed to the console by the logger and is written to
    the session log as well. *)
Lemma C8_chunk_echoed_and_persisted :
  let '(inv, s0) := Scenario.echo_logged in
  exists s,
    run inv s0 [EvStdout "hello"; EvWritten 0 None] = Some s
    /\ (process_stdout, "[stdout] hello") ∈ console s
    /\ Logger.stdout_entry "hello" ∈ logfile s.
Proof.
  vm_compute. eexists. split; [reflexivity|].
  split; [apply list_elem_of_here | apply list_elem_of_further, list_elem_of_here].
Qed.

(** ** Reading the logs back *)

Import FS LogReader Observed.

Section ReaderFacts.

Variable JSON_parse : string -> option json.
Variable path_join : string -> string -> string.

Lemma strict_eq_string_spec (v : option json) (s : string) :
  strict_eq_string v s = true <-> v = Some (JStr s).
Proof.
  unfold strict_eq_string. destruct v as [[]|]; try (split; [done|by intros [=]]).
  rewrite String.eqb_eq. split; [by intros -> | by intros [= ->]].
Qed.


Lemma find_session_Some (sid : string) (index : list Session) (s : Session) :
  find_session sid index = Some s ->
  s ∈ index /\ sessionId s = Some (JStr sid).
Proof.
  induction index as [|x index IH]; simpl; [done|].
  destruct (strict_eq_string (sessionId x) sid) eqn:Hx.
  - intros [= <-]. split; [apply list_elem_of_here|].
    by apply strict_eq_string_spec.
  - intros [Hin Hid]%IH. split; [by apply list_elem_of_further | done].
Qed.

(** The loop over the lines keeps what [JSON.parse] accepts, in the
    order of the lines. *)
Lemma collect_logs_omap (logs : list json) (lines : list string) :
  collect_logs JSON_parse logs lines = logs ++ omap JSON_parse lines.
Proof.
  revert logs. induction lines as [|line lines IH]; intros logs; simpl.
  - by rewrite app_nil_r.
  - destruct (JSON_parse line) as [entry|]; rewrite IH; [|done].
    by rewrite <- app_assoc.
Qed.













(** [viewLog] hands [getRecentSessions] the directory it has worked
    out, which [getRecentSessions] takes as it is. *)
Lemma logs_path_again cwd logDir :
  logs_path path_join cwd (Some (logs_path path_join cwd logDir))
  = logs_path path_join cwd logDir.
Proof.
  unfold logs_path. destruct logDir as [d|].
  - destruct (truthy d) eqn:Hd; [by rewrite Hd|].
    by destruct (truthy (path_join cwd "claude-spawn-logs")).
  - by destruct (truthy (path_join cwd "claude-spawn-logs")).
Qed.

(** What [readFirstLine] resolves with comes from a file. *)
Lemma readFirstLine_Ok fs p line :
  readFirstLine fs p = Ok line ->
  exists content, fs !! p = Some (File content) /\ line = first_line content.
Proof.
  destruct (fs !! p) as [[content|names]|] eqn:Hp.
  - rewrite (readFirstLine_first_line fs p content Hp). intros [= <-]. eauto.
  - unfold readFirstLine, createReadStream, readFile. by rewrite Hp.
  - unfold readFirstLine, createReadStream, readFile. by rewrite Hp.
Qed.

Lemma prop_of_object start k ty :
  prop start "type" = Value ty ->
  prop start k
  = Value match prop start k with Value v => v | TypeError => None end.
Proof. by destruct start. Qed.

(** *** Which sessions the index holds *)

(** The body of the inner loop pushes one session for a file that
    holds a session, and nothing for another file. *)
Lemma pushed_spec fs logsPath k :
  (pushed JSON_parse path_join fs logsPath k = []
   /\ ~ session_file JSON_parse path_join fs logsPath k)
  \/ (exists s, pushed JSON_parse path_join fs logsPath k = [s]
                /\ stands_for JSON_parse path_join fs logsPath k s).
Proof.
  unfold pushed, visit_file, session_file, stands_for, log_path.
  destruct (endsWith k.2 ".log") eqn:Hlog;
    [|left; split; [done | by intros [? _]]].
  destruct (readFirstLine fs _) as [firstLine|e] eqn:Hread.
  - apply readFirstLine_Ok in Hread as (content & Hfile & ->).
    destruct (truthy (first_line content)) eqn:Htruthy;
      [|left; split; [done | intros (_ & c & st & Hc & Ht & _); congruence]].
    destruct (JSON_parse (first_line content)) as [start|] eqn:Hparse;
      [|left; split; [done | intros (_ & c & st & Hc & _ & Hp & _); congruence]].
    destruct (prop start "type") as [|ty] eqn:Hty;
      [left; split; [done | intros (_ & c & st & Hc & _ & Hp & Hs); congruence]|].
    destruct (strict_eq_string ty "session_start") eqn:Hstart.
    + apply strict_eq_string_spec in Hstart as ->. right. eexists.
      split; [by destruct (decide _)|]. simpl.
      split; [done|]. split; [done|]. exists content, start.
      split_and!; try done; by eapply prop_of_object.
    + left. split; [done|]. intros (_ & c & st & Hc & _ & Hp & Hs).
      simplify_eq. by rewrite Hs in Hty; simplify_eq.
  - left. split; [done|]. intros (_ & c & st & Hc & _).
    by rewrite (readFirstLine_first_line fs _ c Hc) in Hread.
Qed.

(** The body of the inner loop, for a file that can be read. *)
Lemma visit_file_pushed fs limit logsPath sessions k :
  (endsWith k.2 ".log" = true ->
   exists content, fs !! log_path path_join logsPath k = Some (File content)) ->
  visit_file JSON_parse path_join fs limit (path_join logsPath k.1) sessions k.2
  = match pushed JSON_parse path_join fs logsPath k with
    | [] => Next sessions
    | s :: _ =>
        if decide (limit <= length (sessions ++ [s]))%nat
        then Return (sessions ++ [s]) else Next (sessions ++ [s])
    end.
Proof.
  intros Hfile. unfold pushed, visit_file, log_path in *.
  destruct (endsWith k.2 ".log") eqn:Hlog; [|done].
  destruct (Hfile eq_refl) as [content Hc].
  rewrite (readFirstLine_first_line fs _ content Hc).
  destruct (truthy _); [|done].
  destruct (JSON_parse _) as [start|]; [|done].
  destruct (prop start "type") as [|ty]; [done|].
  destruct (strict_eq_string ty "session_start"); [|done].
  match goal with |- context [decide (0 <= ?n)%nat] =>
    by destruct (decide (0 <= n)%nat)
  end.
Qed.

(** The inner loop over files that can be read: it goes on while the
    sessions are fewer than the limit, and returns with the push that
    reaches it. A limit of 0 works as a limit of 1. *)
Lemma visit_files_cut fs limit logsPath date sessions files :
  (forall file, file ∈ files -> endsWith file ".log" = true ->
     exists content,
       fs !! path_join (path_join logsPath date) file = Some (File content)) ->
  (length sessions < max 1 limit)%nat ->
  visit_files JSON_parse path_join fs limit (path_join logsPath date)
    sessions files
  = cut (max 1 limit)
      (sessions ++
         (file ← files; pushed JSON_parse path_join fs logsPath (date, file))).
Proof.
  revert sessions. induction files as [|file files IH]; intros sessions Hfiles Hlt.
  - simpl. rewrite app_nil_r. unfold cut. by rewrite decide_False by lia.
  - cbn [visit_files]. rewrite bind_cons.
    pose proof (visit_file_pushed fs limit logsPath sessions (date, file)) as Hv.
    unfold log_path in Hv. simpl in Hv.
    rewrite Hv by (apply Hfiles, list_elem_of_here). clear Hv.
    destruct (pushed_spec fs logsPath (date, file))
      as [[-> _]|(s & -> & _)].
    + apply IH; [|done]. intros f Hf. apply Hfiles. by apply list_elem_of_further.
    + assert (length (sessions ++ [s]) = S (length sessions)) as Hlen
        by (rewrite length_app; simpl; lia).
      destruct (decide (limit <= length (sessions ++ [s]))%nat) as [Hle|Hgt].
      * unfold cut. rewrite decide_True
          by (rewrite !length_app in *; simpl in *; lia).
        f_equal. rewrite (app_assoc sessions [s]).
        rewrite take_app_length'; [done | lia].
      * rewrite (app_assoc sessions [s]).
        apply IH; [|lia]. intros f Hf. apply Hfiles.
        by apply list_elem_of_further.
Qed.

Lemma cut_more n l more :
  cut n l = Return (take n l) -> cut n (l ++ more) = Return (take n l).
Proof.
  unfold cut. destruct (decide (n <= length l)%nat) as [Hle|Hgt]; [|done].
  intros _. rewrite decide_True by (rewrite length_app; lia).
  by rewrite take_app_le.
Qed.

Lemma elem_of_sorted (x : string) (l : list string) :
  x ∈ reverse (JS.sort l) <-> x ∈ l.
Proof. rewrite elem_of_reverse. by rewrite sort_permutation. Qed.

Lemma sorted_elem_of (x : string) (l : list string) :
  x ∈ reverse (JS.sort l) -> x ∈ l.
Proof. apply elem_of_sorted. Qed.

Lemma elem_of_sorted_2 (x : string) (l : list string) :
  x ∈ l -> x ∈ reverse (JS.sort l).
Proof. apply elem_of_sorted. Qed.

(** The outer loop over date directories that can be read. *)
Lemma visit_dates_cut fs limit logsPath sessions dates :
  (forall date, date ∈ dates ->
     exists files,
       readdir fs (path_join logsPath date) = Ok files
       /\ forall file, file ∈ files -> endsWith file ".log" = true ->
            exists content,
              fs !! path_join (path_join logsPath date) file
              = Some (File content)) ->
  (length sessions < max 1 limit)%nat ->
  visit_dates JSON_parse path_join fs limit logsPath sessions dates
  = cut (max 1 limit)
      (sessions ++
         ((date ← dates; block path_join fs logsPath date)
            ≫= pushed JSON_parse path_join fs logsPath)).
Proof.
  revert sessions. induction dates as [|date dates IH]; intros sessions Hdates Hlt.
  - simpl. rewrite app_nil_r. unfold cut. by rewrite decide_False by lia.
  - cbn [visit_dates]. rewrite bind_cons, bind_app.
    destruct (Hdates date (list_elem_of_here _ _)) as (files & Hdir & Hfiles).
    unfold visit_date, block. rewrite Hdir.
    rewrite visit_files_cut; [|intros f Hf; apply Hfiles; by apply sorted_elem_of|done].
    rewrite list_fmap_bind.
    set (B := reverse (JS.sort files) ≫= _).
    set (R := (dates ≫= _) ≫= _).
    rewrite (app_assoc sessions B R).
    unfold cut at 1. destruct (decide (max 1 limit <= length (sessions ++ B))%nat)
      as [Hle|Hgt].
    + symmetry. apply cut_more. unfold cut. by rewrite decide_True.
    + subst R. apply IH; [|lia]. intros d Hd. apply Hdates.
      by apply list_elem_of_further.
Qed.

(** In a log directory that can be read throughout, the index is the
    head of what the walk pushes. *)
Lemma getRecentSessions_walk fs cwd logDir limit dates :
  log_tree path_join fs (logs_path path_join cwd logDir) dates ->
  getRecentSessions JSON_parse path_join fs cwd logDir limit
  = Ok (take (max 1 limit)
          (walk path_join fs (logs_path path_join cwd logDir) dates
             ≫= pushed JSON_parse path_join fs (logs_path path_join cwd logDir))).
Proof.
  intros (Hdir & _ & Hdates). unfold getRecentSessions, scan. rewrite Hdir.
  rewrite visit_dates_cut; [|idtac|simpl; lia].
  - simpl. fold (walk path_join fs (logs_path path_join cwd logDir) dates).
    unfold cut. destruct (decide _) as [Hle|Hgt]; [done|].
    by rewrite take_ge by lia.
  - intros date Hd. apply sorted_elem_of in Hd.
    destruct (Hdates date Hd) as (files & Hf & _ & Hfiles). eauto.
Qed.

(** The order of the walk. *)
Lemma StronglySorted_reverse {A} (R : relation A) (l : list A) :
  StronglySorted R l -> StronglySorted (flip R) (reverse l).
Proof.
  induction 1 as [|x l Hl IH Hx]; [constructor|].
  rewrite reverse_cons. apply StronglySorted_app_2; [|done|repeat constructor].
  intros x1 x2 H1 ->%list_elem_of_singleton.
  rewrite elem_of_reverse in H1. unfold flip. rewrite Forall_forall in Hx. by apply Hx.
Qed.

Lemma StronglySorted_sublist {A} (R : relation A) (l1 l2 : list A) :
  l1 `sublist_of` l2 -> StronglySorted R l2 -> StronglySorted R l1.
Proof.
  induction 1 as [|x l1 l2 Hsub IH|x l1 l2 Hsub IH];
    [done|intros [Hx Hl]%StronglySorted_cons..].
  - constructor; [by apply IH|]. apply Forall_forall. intros y Hy.
    rewrite Forall_forall in Hx. apply Hx. by eapply elem_of_sublist.
  - by apply IH.
Qed.

Lemma sort_descending (l : list string) :
  NoDup l -> StronglySorted (flip before) (reverse (JS.sort l)).
Proof.
  intros Hnd. apply StronglySorted_reverse.
  assert (NoDup (JS.sort l)) as Hnd' by (by rewrite sort_permutation).
  pose proof (@Sorted_StronglySorted _ code_units_le code_units_le_trans _
                (sort_sorted l)) as Hs.
  induction Hs as [|x r Hr IH Hx]; [constructor|].
  apply NoDup_cons in Hnd' as [Hx' Hnd']. constructor; [by apply IH|].
  apply Forall_forall. intros y Hy. split.
  - rewrite Forall_forall in Hx. by apply Hx.
  - by intros ->.
Qed.

Lemma walk_sorted fs logsPath dates :
  log_tree path_join fs logsPath dates ->
  StronglySorted newer (walk path_join fs logsPath dates).
Proof.
  intros (_ & Hnd & Hdates). unfold walk.
  pose proof (sort_descending dates Hnd) as Hs.
  assert (forall d, d ∈ reverse (JS.sort dates) -> d ∈ dates) as Hin
    by (intros d; apply sorted_elem_of).
  induction Hs as [|d r Hr IH Hd]; [constructor|].
  rewrite bind_cons. apply StronglySorted_app_2.
  - intros k1 k2 H1 (d' & H2 & Hd')%list_elem_of_bind. left.
    assert (k1.1 = d) as ->.
    { unfold block in H1. destruct (readdir _ _); [|by apply elem_of_nil in H1].
      by apply list_elem_of_fmap in H1 as (f & -> & _). }
    assert (k2.1 = d') as ->.
    { unfold block in H2. destruct (readdir _ _); [|by apply elem_of_nil in H2].
      by apply list_elem_of_fmap in H2 as (f & -> & _). }
    rewrite Forall_forall in Hd. by apply Hd.
  - unfold block.
    destruct (Hdates d (Hin d (list_elem_of_here _ _))) as (files & -> & Hf & _).
    eapply StronglySorted_fmap; [|by apply sort_descending].
    intros x y Hxy. right. done.
  - apply IH. intros d' Hd'. apply Hin. by apply list_elem_of_further.
Qed.

Lemma walk_listed fs logsPath dates k :
  readdir fs logsPath = Ok dates ->
  k ∈ walk path_join fs logsPath dates <-> listed path_join fs logsPath k.
Proof.
  intros Hdir. unfold walk, listed, block. rewrite list_elem_of_bind. split.
  - intros (d & Hk & Hd%sorted_elem_of).
    destruct (readdir fs (path_join logsPath d)) as [files|e] eqn:Hf;
      [|by apply elem_of_nil in Hk].
    apply list_elem_of_fmap in Hk as (f & -> & Hin%sorted_elem_of).
    by exists dates, files.
  - intros (dates' & files & Hd & Hin & Hf & Hfile).
    rewrite Hdir in Hd. injection Hd as <-.
    exists k.1. rewrite Hf. split; [|by apply elem_of_sorted_2].
    apply list_elem_of_fmap. exists k.2. split; [by destruct k|].
    by apply elem_of_sorted_2.
Qed.

(** The files behind what a walk pushes. *)
Lemma pushed_keys fs logsPath (files : list (string * string)) :
  exists keys,
    Forall2 (stands_for JSON_parse path_join fs logsPath) keys
      (files ≫= pushed JSON_parse path_join fs logsPath)
    /\ keys `sublist_of` files
    /\ forall k, k ∈ files ->
         session_file JSON_parse path_join fs logsPath k -> k ∈ keys.
Proof.
  induction files as [|k files (keys & Hall & Hsub & Hin)].
  - exists []. split; [constructor|]. split; [done|].
    intros k Hk. by apply elem_of_nil in Hk.
  - rewrite bind_cons.
    destruct (pushed_spec fs logsPath k) as [[-> Hno]|(s & -> & Hs)].
    + exists keys. split; [done|]. split; [by apply sublist_cons|].
      intros k' [->|Hk']%elem_of_cons Hfile; [done | by apply Hin].
    + exists (k :: keys). split; [by constructor|].
      split; [by apply sublist_skip|].
      intros k' [->|Hk']%elem_of_cons Hfile;
        [apply list_elem_of_here | apply list_elem_of_further; by apply Hin].
Qed.

(** In a log directory that can be read throughout, the index holds
    the most recent sessions: its sessions stand, one for one and in
    order, for files of the directory that are strictly descending by
    date and then by file name, and a file that holds a session and is
    not among them is older than all of them, which then are as many as
    the limit allows. *)
Lemma index_most_recent fs cwd logDir limit index dates :
  log_tree path_join fs (logs_path path_join cwd logDir) dates ->
  getRecentSessions JSON_parse path_join fs cwd logDir limit = Ok index ->
  exists keys,
    Forall2 (stands_for JSON_parse path_join fs (logs_path path_join cwd logDir))
      keys index
    /\ Forall (listed path_join fs (logs_path path_join cwd logDir)) keys
    /\ StronglySorted newer keys
    /\ (length index <= max 1 limit)%nat
    /\ forall k,
         listed path_join fs (logs_path path_join cwd logDir) k ->
         session_file JSON_parse path_join fs (logs_path path_join cwd logDir) k ->
         k ∈ keys
         \/ (length index = max 1 limit /\ Forall (fun k' => newer k' k) keys).
Proof.
  intros Htree Hidx.
  rewrite (getRecentSessions_walk fs cwd logDir limit dates Htree) in Hidx.
  injection Hidx as <-.
  set (logsPath := logs_path path_join cwd logDir) in *.
  set (n := max 1 limit).
  destruct (pushed_keys fs logsPath (walk path_join fs logsPath dates))
    as (keys & Hall & Hsub & Hin).
  assert (StronglySorted newer keys) as Hsorted
    by (eapply StronglySorted_sublist; [exact Hsub | by apply walk_sorted]).
  exists (take n keys). split_and!.
  - by apply Forall2_take.
  - apply Forall_forall. intros k Hk.
    apply (walk_listed fs logsPath dates); [apply Htree|].
    eapply elem_of_sublist; [|exact Hsub].
    eapply elem_of_sublist; [exact Hk | apply sublist_take].
  - eapply StronglySorted_sublist; [apply sublist_take | done].
  - rewrite length_take. lia.
  - intros k Hk Hfile.
    apply (walk_listed fs logsPath dates) in Hk; [|apply Htree].
    pose proof (Hin k Hk Hfile) as Hkeys.
    rewrite <- (take_drop n keys) in Hkeys, Hsorted.
    apply elem_of_app in Hkeys as [Hhead|Htail]; [by left|]. right.
    assert (n < length keys)%nat as Hlong.
    { destruct (decide (n < length keys)%nat) as [|Hshort]; [done|].
      rewrite drop_ge in Htail by lia. by apply elem_of_nil in Htail. }
    split.
    + apply Forall2_length in Hall. rewrite length_take. lia.
    + apply Forall_forall. intros k' Hk'.
      by eapply StronglySorted_app_1_elem_of.
Qed.


End ReaderFacts.

(** The directory of [Archive.disk] can be read throughout; the file
    of its oldest session is listed and holds a session. *)
Lemma Forall2_elem_of_l {A B} (P : A -> B -> Prop) (l : list A) (k : list B)
    (x : A) :
  Forall2 P l k -> x ∈ l -> exists y, y ∈ k /\ P x y.
Proof.
  intros Hall (i & Hi)%list_elem_of_lookup_1.
  destruct (Forall2_lookup_l _ _ _ _ _ Hall Hi) as (y & Hy & Hxy).
  exists y. split; [by eapply list_elem_of_lookup_2 | done].
Qed.

Lemma Archive_tree :
  log_tree Archive.path_join Archive.disk Archive.root [Archive.day].
Proof.
  split; [by vm_compute|]. split; [apply NoDup_singleton|].
  intros date ->%list_elem_of_singleton.
  exists (Archive.file_name <$> seq 0 101). split; [by vm_compute|]. split.
  - apply (bool_decide_unpack _). by vm_compute.
  - intros file (i & -> & Hi)%list_elem_of_fmap _.
    assert (forallb
              (fun i =>
                 match Archive.disk
                         !! Archive.path_join
                              (Archive.path_join Archive.root Archive.day)
                              (Archive.file_name i) with
                 | Some (File _) => true
                 | _ => false
                 end) (seq 0 101) = true) as Hall by (by vm_compute).
    rewrite forallb_forall in Hall. apply list_elem_of_In, Hall in Hi.
    destruct (Archive.disk !! _) as [[content|]|]; [by exists content|done..].
Qed.

Lemma Archive_oldest :
  listed Archive.path_join Archive.disk Archive.root
    (Archive.day, Archive.file_name 0)
  /\ session_file Archive.parse Archive.path_join Archive.disk Archive.root
       (Archive.day, Archive.file_name 0).
Proof.
  split.
  - exists [Archive.day], (Archive.file_name <$> seq 0 101).
    split; [by vm_compute|]. split; [apply list_elem_of_here|].
    split; [by vm_compute|]. apply list_elem_of_here.
  - split; [by vm_compute|]. eexists _, _.
    split; [vm_compute; reflexivity|]. split; [by vm_compute|].
    split; [vm_compute; reflexivity|]. by vm_compute.
Qed.


(** * More of the runner *)

Import Observed.

(** ** The captured output *)

Section Captured.

Variable path_join : string -> string -> string.

Lemma resume_output inv k r s :
  stdout (resume inv k r s) = stdout s /\ stderr (resume inv k r s) = stderr s.
Proof. destruct s, k, r; crush_handlers. Qed.

Lemma on_exit_output inv code signal s :
  stdout (on_exit inv code signal s) = stdout s
  /\ stderr (on_exit inv code signal s) = stderr s.
Proof.
  unfold on_exit, logExit, writeLog.
  pose proof (resume_output inv (KExit code signal) None (clearTimeout s))
    as (Ho & He).
  change (resume inv (KExit code signal) None (clearTimeout s))
    with (exit_resume inv code signal (clearTimeout s)) in *.
  assert (stdout (clearTimeout s) = stdout s
          /\ stderr (clearTimeout s) = stderr s) as (H1 & H2)
    by (destruct s as [? ? ? tid ? ? ? ? ? ? ?]; by destruct tid).
  destruct (timedOut (clearTimeout s)); [done|].
  destruct (saveLog (config inv)), (Logger.writes_nothing (logger inv));
    cbv iota beta; rewrite ?Ho, ?He; simpl; rewrite ?H1, ?H2; done.
Qed.

Lemma on_error_output inv e s :
  stdout (on_error inv e s) = stdout s
  /\ stderr (on_error inv e s) = stderr s.
Proof.
  unfold on_error, logError, writeLog.
  pose proof (resume_output inv (KError e) None (clearTimeout s)) as (Ho & He).
  change (resume inv (KError e) None (clearTimeout s))
    with (error_resume inv e (clearTimeout s)) in *.
  assert (stdout (clearTimeout s) = stdout s
          /\ stderr (clearTimeout s) = stderr s) as (H1 & H2)
    by (destruct s as [? ? ? tid ? ? ? ? ? ? ?]; by destruct tid).
  destruct (saveLog (config inv)), (Logger.writes_nothing (logger inv));
    cbv iota beta; rewrite ?Ho, ?He; simpl; rewrite ?H1, ?H2; done.
Qed.

Lemma step_captures inv s ev s' :
  step inv s ev = Some s' ->
  stdout s' = stdout s +:+ chunks_out [ev]
  /\ stderr s' = stderr s +:+ chunks_err [ev].
Proof.
  unfold step. destruct (spawned inv) as [[call child]|]; [|done].
  destruct ev as [data|data|e|code signal| |i r]; intros Hs; simpl;
    rewrite ?append_empty_r.
  - destruct (_ && _); [|done]. simplify_eq. destruct s; crush_handlers.
  - destruct (_ && _); [|done]. simplify_eq. destruct s; crush_handlers.
  - simplify_eq. apply on_error_output.
  - simplify_eq. apply on_exit_output.
  - destruct (timeoutId s); try done. simplify_eq. by destruct s.
  - destruct (writes s !! i) as [w|]; [|done]. simplify_eq.
    unfold on_written.
    set (s1 := match r with None => _ | Some _ => _ end).
    destruct (resume_output inv (w_then w) r s1) as (Ho & He).
    rewrite Ho, He. subst s1. by destruct r.
Qed.

Lemma chunks_out_cons ev trace :
  chunks_out (ev :: trace) = chunks_out [ev] +:+ chunks_out trace.
Proof. destruct ev; simpl; by rewrite ?append_empty_r. Qed.

Lemma chunks_err_cons ev trace :
  chunks_err (ev :: trace) = chunks_err [ev] +:+ chunks_err trace.
Proof. destruct ev; simpl; by rewrite ?append_empty_r. Qed.

Lemma run_captures inv trace s s' :
  run inv s trace = Some s' ->
  stdout s' = stdout s +:+ chunks_out trace
  /\ stderr s' = stderr s +:+ chunks_err trace.
Proof.
  revert s. induction trace as [|ev trace IH]; intros s.
  - intros [= <-]. simpl. by rewrite !append_empty_r.
  - cbn [run]. destruct (step inv s ev) as [s1|] eqn:Hstep; [|done]. intros Hrun.
    destruct (step_captures _ _ _ _ Hstep) as [Ho He].
    destruct (IH _ Hrun) as [Ho' He'].
    rewrite Ho', He', Ho, He.
    rewrite (chunks_out_cons ev trace), (chunks_err_cons ev trace).
    by rewrite !append_assoc.
Qed.

Lemma captured_since_start host world command args options inv s0 trace s :
  runCommand path_join host world command args options = (inv, s0) ->
  run inv s0 trace = Some s ->
  stdout s = chunks_out trace /\ stderr s = chunks_err trace.
Proof.
  intros Hrun Htrace.
  destruct (runCommand_initial _ _ _ _ _ _ _ _ Hrun) as (_ & _ & _ & Ho & He & _).
  destruct (run_captures _ _ _ _ Htrace) as [Ho' He'].
  by rewrite Ho', He', Ho, He.
Qed.

(** X1. At any moment of an invocation the variables [stdout] and
    [stderr] hold the chunks the two ['data'] handlers have received so
    far, each stream in the order of arrival, and nothing else: no
    other event adds to them or takes from them. *)
Theorem X1_captured_output_is_the_chunks host world command args options
    inv s0 trace s :
  runCommand path_join host world command args options = (inv, s0) ->
  run inv s0 trace = Some s ->
  stdout s = chunks_out trace /\ stderr s = chunks_err trace.
Proof. apply captured_since_start. Qed.

End Captured.

Lemma X1_captured_output_is_the_chunks_witness :
  exists s,
    run (fst Scenario.failing) (snd Scenario.failing)
      [EvStdout "a"; EvStderr "oops"; EvStdout "b"] = Some s
    /\ stdout s = "ab" /\ stderr s = "oops".
Proof.
  eexists. split; [reflexivity|].
  exact (X1_captured_output_is_the_chunks Scenario.path_join Scenario.host
           Scenario.world "sh" ["-c"; "echo oops >&2; exit 3"] Scenario.quiet
           (fst Scenario.failing) (snd Scenario.failing)
           [EvStdout "a"; EvStderr "oops"; EvStdout "b"] _ eq_refl eq_refl).
Defined.

(** ** Exit with code zero, and the error event *)

Section Outcomes.

Variable path_join : string -> string -> string.

Lemma exit_resume_resolves inv signal s :
  promise s = Pending ->
  promise (exit_resume inv (Some 0%Z) signal s)
  = Resolved
      {| success := true;
         r_stdout := Some (stdout s);
         r_stderr := Some (stderr s);
         r_code := Some (Some 0%Z);
         r_pid := match spawned inv with Some (_, c) => pid c | None => None end;
         r_detached := None;
         r_message := None;
         r_sessionId := if saveLog (config inv)
                        then Some (Logger.sessionId (logger inv)) else None;
         r_logFile := if saveLog (config inv)
                      then Some (Logger.logFile (logger inv)) else None |}.
Proof. intros Hp. destruct s; crush_handlers. Qed.

Lemma on_written_exit inv i entry code signal s :
  on_written inv i (mkWrite entry (KExit code signal)) None s
  = exit_resume inv code signal
      (set_logfile (logfile s ++ [entry]) (set_writes (delete i (writes s)) s)).
Proof. reflexivity. Qed.

(** X2. When the child exits with code 0 while the call is pending and
    has not timed out, the call is resolved with [success: true], code
    0, the pid of the child and all the output captured up to that
    moment; the result has the keys [sessionId] and [logFile] exactly
    when [saveLog] is on. Without a session_end entry to write this
    happens in the exit handler itself; with one, the call stays
    pending on the write, and the result is made when the write has
    succeeded, from the output captured by then. *)
Theorem X2_exit_zero_resolves_with_output host world command args options
    inv s0 trace s call child signal :
  runCommand path_join host world command args options = (inv, s0) ->
  run inv s0 trace = Some s ->
  spawned inv = Some (call, child) ->
  promise s = Pending ->
  let result :=
    {| success := true;
       r_stdout := Some (chunks_out trace);
       r_stderr := Some (chunks_err trace);
       r_code := Some (Some 0%Z);
       r_pid := pid child;
       r_detached := None;
       r_message := None;
       r_sessionId := if saveLog (config inv)
                      then Some (Logger.sessionId (logger inv)) else None;
       r_logFile := if saveLog (config inv)
                    then Some (Logger.logFile (logger inv)) else None |} in
  (timedOut s = false ->
   exists s1,
     step inv s (EvExit (Some 0%Z) signal) = Some s1
     /\ if saveLog (config inv) && negb (Logger.writes_nothing (logger inv))
        then promise s1 = Pending
             /\ writes s1 = writes s ++
                  [mkWrite (Logger.session_end (Some 0%Z) signal)
                     (KExit (Some 0%Z) signal)]
        else promise s1 = Resolved result)
  /\ (forall i entry,
        writes s !! i = Some (mkWrite entry (KExit (Some 0%Z) signal)) ->
        exists s1,
          step inv s (EvWritten i None) = Some s1
          /\ promise s1 = Resolved result).
Proof.
  intros Hrun Htrace Hsp Hp result.
  destruct (captured_since_start _ _ _ _ _ _ _ _ _ _ Hrun Htrace)
    as [Hout Herr].
  split.
  - intros HtO. unfold step. rewrite Hsp. eexists. split; [done|].
    unfold on_exit.
    assert (timedOut (clearTimeout s) = false /\ promise (clearTimeout s) = Pending
            /\ stderr (clearTimeout s) = stderr s
            /\ stdout (clearTimeout s) = stdout s
            /\ writes (clearTimeout s) = writes s) as (Ht & Hpc & He & Ho & Hw)
      by (destruct s; crush_handlers).
    rewrite Ht. unfold logExit, writeLog.
    assert (promise (exit_resume inv (Some 0%Z) signal (clearTimeout s))
            = Resolved result) as Hres.
    { rewrite (exit_resume_resolves _ _ _ Hpc), Hsp, He, Ho, Hout, Herr. done. }
    destruct (saveLog (config inv)) eqn:Hsave,
      (Logger.writes_nothing (logger inv)); simpl; try done.
    by rewrite Hw.
  - intros i entry Hw. unfold step. rewrite Hsp, Hw. eexists. split; [done|].
    rewrite on_written_exit.
    match goal with |- context [exit_resume _ _ _ ?x] => set (s2 := x) end.
    assert (promise s2 = Pending /\ stdout s2 = stdout s /\ stderr s2 = stderr s)
      as (Hp2 & Ho2 & He2) by (by destruct s).
    rewrite (exit_resume_resolves _ _ _ Hp2), Hsp, Ho2, He2, Hout, Herr. done.
Qed.

Lemma error_resume_rejects inv e s :
  promise s = Pending -> promise (error_resume inv e s) = Rejected e.
Proof. intros Hp. destruct s; crush_handlers. Qed.

Lemma on_error_timer inv e s : timeoutId (on_error inv e s) <> Armed.
Proof. destruct s as [? ? ? tid ? ? ? ? ? ? ?]; destruct tid; crush_handlers. Qed.

(** X3. When the child emits ['error'] while the call is pending, the
    timer is cancelled for good and the call is rejected with that very
    error object: at once when there is no error entry to write, and
    otherwise when the write of the error entry has succeeded. *)
Theorem X3_error_event_rejects_with_the_error host world command args options
    inv s0 trace s call child e :
  runCommand path_join host world command args options = (inv, s0) ->
  run inv s0 trace = Some s ->
  spawned inv = Some (call, child) ->
  promise s = Pending ->
  (exists s1,
     step inv s (EvError e) = Some s1
     /\ (forall later s2, run inv s1 later = Some s2 ->
           step inv s2 EvTimeout = None)
     /\ if saveLog (config inv) && negb (Logger.writes_nothing (logger inv))
        then promise s1 = Pending
             /\ writes s1 = writes s ++
                  [mkWrite (Logger.error_entry (message e)) (KError e)]
        else promise s1 = Rejected e)
  /\ (forall i entry,
        writes s !! i = Some (mkWrite entry (KError e)) ->
        exists s1,
          step inv s (EvWritten i None) = Some s1
          /\ promise s1 = Rejected e).
Proof.
  intros Hrun Htrace Hsp Hp. split.
  - unfold step. rewrite Hsp. eexists. split; [done|]. split.
    + intros later s2 Hlater.
      assert (timeoutId s2 <> Armed) as Hna.
      { apply (run_preserves inv (fun x => timeoutId x <> Armed)) with later
          (on_error inv e s); [|apply on_error_timer|done].
        intros ????. by apply step_never_arms. }
      by destruct (timeoutId s2).
    + unfold on_error.
      assert (promise (clearTimeout s) = Pending
              /\ writes (clearTimeout s) = writes s) as (Hpc & Hw)
        by (destruct s; crush_handlers).
      unfold logError, writeLog.
      destruct (saveLog (config inv)), (Logger.writes_nothing (logger inv));
        simpl; rewrite ?Hw; try done; by apply error_resume_rejects.
  - intros i entry Hw. unfold step. rewrite Hsp, Hw. eexists. split; [done|].
    unfold on_written; simpl. apply error_resume_rejects. by destruct s.
Qed.

End Outcomes.

Lemma X2_exit_zero_resolves_with_output_witness :
  exists s s1 r,
    run (fst Scenario.failing) (snd Scenario.failing) [EvStdout "done"] = Some s
    /\ step (fst Scenario.failing) s (EvExit (Some 0%Z) None) = Some s1
    /\ promise s1 = Resolved r
    /\ r_stdout r = Some "done" /\ r_pid r = Some 9001%N
    /\ r_sessionId r = None.
Proof.
  destruct (X2_exit_zero_resolves_with_output Scenario.path_join Scenario.host
              Scenario.world "sh" ["-c"; "echo oops >&2; exit 3"] Scenario.quiet
              (fst Scenario.failing) (snd Scenario.failing)
              [EvStdout "done"] _ _ Scenario.child None
              eq_refl eq_refl eq_refl eq_refl) as [Hexit _].
  destruct (Hexit eq_refl) as (s1 & Hstep & Hres).
  eexists _, s1, _. split; [reflexivity|]. split; [exact Hstep|].
  split; [exact Hres|]. repeat split.
Defined.

Lemma X3_error_event_rejects_with_the_error_witness :
  exists s1,
    step (fst Scenario.failing) (snd Scenario.failing)
      (EvError (system_error "ENOENT" "spawn sh ENOENT")) = Some s1
    /\ promise s1 = Rejected (system_error "ENOENT" "spawn sh ENOENT").
Proof.
  destruct (X3_error_event_rejects_with_the_error Scenario.path_join
              Scenario.host Scenario.world "sh" ["-c"; "echo oops >&2; exit 3"]
              Scenario.quiet (fst Scenario.failing) (snd Scenario.failing)
              [] _ _ Scenario.child (system_error "ENOENT" "spawn sh ENOENT")
              eq_refl eq_refl eq_refl eq_refl) as [(s1 & Hstep & _ & Hres) _].
  exists s1. split; [exact Hstep | exact Hres].
Defined.

(** ** The termination signal *)

Section Signals.

Variable path_join : string -> string -> string.

(** The child has been sent SIGTERM once if the timer has fired, and
    nothing otherwise; a timer that has fired is not armed. *)
Lemma on_error_frame inv e s :
  timedOut (on_error inv e s) = timedOut s
  /\ kills (on_error inv e s) = kills s
  /\ timeoutId (on_error inv e s)
     = match timeoutId s with Armed => Cleared | other => other end.
Proof.
  unfold on_error, logError, writeLog.
  pose proof (resume_frame inv (KError e) None (clearTimeout s))
    as (Ht & HtO & _ & _ & Hk).
  change (resume inv (KError e) None (clearTimeout s))
    with (error_resume inv e (clearTimeout s)) in *.
  assert (timedOut (clearTimeout s) = timedOut s
          /\ kills (clearTimeout s) = kills s
          /\ timeoutId (clearTimeout s)
             = match timeoutId s with Armed => Cleared | other => other end)
    as (H1 & H2 & H3)
    by (destruct s as [? ? ? tid ? ? ? ? ? ? ?]; by destruct tid).
  destruct (saveLog (config inv)), (Logger.writes_nothing (logger inv));
    cbv iota beta; rewrite ?Ht, ?HtO, ?Hk; simpl; rewrite ?H1, ?H2, ?H3; done.
Qed.

Lemma on_exit_frame inv code signal s :
  timedOut (on_exit inv code signal s) = timedOut s
  /\ kills (on_exit inv code signal s) = kills s
  /\ timeoutId (on_exit inv code signal s)
     = match timeoutId s with Armed => Cleared | other => other end.
Proof.
  unfold on_exit, logExit, writeLog.
  pose proof (resume_frame inv (KExit code signal) None (clearTimeout s))
    as (Ht & HtO & _ & _ & Hk).
  change (resume inv (KExit code signal) None (clearTimeout s))
    with (exit_resume inv code signal (clearTimeout s)) in *.
  assert (timedOut (clearTimeout s) = timedOut s
          /\ kills (clearTimeout s) = kills s
          /\ timeoutId (clearTimeout s)
             = match timeoutId s with Armed => Cleared | other => other end)
    as (H1 & H2 & H3)
    by (destruct s as [? ? ? tid ? ? ? ? ? ? ?]; by destruct tid).
  rewrite H1 in HtO |- *. rewrite H2 in Hk. rewrite H3 in Ht.
  destruct (timedOut s) eqn:E; [by rewrite H1, H2, H3|].
  destruct (saveLog (config inv)), (Logger.writes_nothing (logger inv));
    cbv iota beta; rewrite ?Ht, ?HtO, ?Hk; simpl; rewrite ?H1, ?H2, ?H3; done.
Qed.

Lemma on_data_frame inv data s :
  (timedOut (on_stdout inv data s) = timedOut s
   /\ kills (on_stdout inv data s) = kills s
   /\ timeoutId (on_stdout inv data s) = timeoutId s)
  /\ (timedOut (on_stderr inv data s) = timedOut s
      /\ kills (on_stderr inv data s) = kills s
      /\ timeoutId (on_stderr inv data s) = timeoutId s).
Proof. destruct s; split; crush_handlers. Qed.

Lemma on_written_frame inv i w r s :
  timedOut (on_written inv i w r s) = timedOut s
  /\ kills (on_written inv i w r s) = kills s
  /\ timeoutId (on_written inv i w r s) = timeoutId s.
Proof.
  unfold on_written.
  set (s1 := match r with None => _ | Some _ => _ end).
  destruct (resume_frame inv (w_then w) r s1) as (Ht & HtO & _ & _ & Hk).
  rewrite Ht, HtO, Hk. subst s1. by destruct r.
Qed.

Lemma step_timer_frame inv s ev s' :
  step inv s ev = Some s' ->
  (timeoutId s = Armed /\ timedOut s' = true /\ timeoutId s' = Fired
   /\ kills s' = kills s ++ ["SIGTERM"])
  \/ (timedOut s' = timedOut s /\ kills s' = kills s
      /\ timeoutId s'
         = match timeoutId s with Armed => Cleared | other => other end)
  \/ (timedOut s' = timedOut s /\ kills s' = kills s
      /\ timeoutId s' = timeoutId s).
Proof.
  unfold step. destruct (spawned inv) as [[call child]|]; [|done].
  destruct ev as [data|data|e|code signal| |i r]; intros Hs.
  - destruct (_ && _); [|done]. simplify_eq. right; right.
    apply on_data_frame.
  - destruct (_ && _); [|done]. simplify_eq. right; right.
    apply on_data_frame.
  - simplify_eq. right; left. apply on_error_frame.
  - simplify_eq. right; left. apply on_exit_frame.
  - left. destruct (timeoutId s) eqn:Htid; try done. simplify_eq.
    by destruct s.
  - destruct (writes s !! i) as [w|]; [|done]. simplify_eq. right; right.
    apply on_written_frame.
Qed.

Lemma step_signal inv s ev s' :
  kills s = (if timedOut s then ["SIGTERM"] else [])
  /\ (timedOut s = true -> timeoutId s <> Armed) ->
  step inv s ev = Some s' ->
  kills s' = (if timedOut s' then ["SIGTERM"] else [])
  /\ (timedOut s' = true -> timeoutId s' <> Armed).
Proof.
  intros [Hk Ht] Hstep.
  destruct (step_timer_frame _ _ _ _ Hstep)
    as [(Ha & HtO & Hf & Hks)|[(HtO & Hks & Hid)|(HtO & Hks & Hid)]].
  - rewrite HtO, Hks, Hk, Hf.
    destruct (timedOut s); [by destruct Ht|]. done.
  - rewrite HtO, Hks, Hid. split; [done|]. intros Htrue.
    specialize (Ht Htrue). by destruct (timeoutId s).
  - rewrite HtO, Hks, Hid. split; [done | exact Ht].
Qed.

(** No event sets a timer where the executor has set none. *)
Lemma step_no_timer inv s ev s' :
  timeoutId s = NoTimer /\ timedOut s = false ->
  step inv s ev = Some s' ->
  timeoutId s' = NoTimer /\ timedOut s' = false.
Proof.
  intros [Hn Ht] Hstep.
  destruct (step_timer_frame _ _ _ _ Hstep)
    as [(Ha & _)|[(HtO & _ & Hid)|(HtO & _ & Hid)]]; [congruence|..].
  - by rewrite HtO, Hid, Hn.
  - by rewrite HtO, Hid.
Qed.

Lemma signal_since_start host world command args options inv s0 trace s :
  runCommand path_join host world command args options = (inv, s0) ->
  run inv s0 trace = Some s ->
  kills s = (if timedOut s then ["SIGTERM"] else [])
  /\ (timedOut s = true -> timeoutId s <> Armed).
Proof.
  intros Hrun Htrace.
  destruct (runCommand_initial _ _ _ _ _ _ _ _ Hrun) as (HtO & _ & Hks & _).
  apply (run_preserves inv
           (fun x => kills x = (if timedOut x then ["SIGTERM"] else [])
                     /\ (timedOut x = true -> timeoutId x <> Armed)))
    with trace s0; [|by rewrite HtO, Hks|done].
  intros ????. by apply step_signal.
Qed.

(** X4. When the [timeout] option is absent or is 0, no timer is ever
    set: at any moment of the invocation the child has been sent no
    signal and the invocation has not timed out, however long the child
    runs. *)
Theorem X4_no_timeout_never_kills host world command args options
    inv s0 trace s :
  runCommand path_join host world command args options = (inv, s0) ->
  opt_timeout options = None \/ opt_timeout options = Some 0%Z ->
  run inv s0 trace = Some s ->
  kills s = [] /\ timedOut s = false /\ timeoutId s = NoTimer
  /\ step inv s EvTimeout = None.
Proof.
  intros Hrun Hto Htrace.
  assert (timeoutId s0 = NoTimer /\ timedOut s0 = false) as Hstart.
  { destruct (runCommand_initial _ _ _ _ _ _ _ _ Hrun) as (HtO & _).
    split; [|done]. clear Htrace.
    unfold runCommand in Hrun.
    assert (timeout_set (timeout (destructure host options)) = None) as Hts
      by (unfold destructure; simpl; by destruct Hto as [-> | ->]).
    rewrite Hts in Hrun.
    repeat (case_match; simplify_eq/=); crush_handlers. }
  assert (timeoutId s = NoTimer /\ timedOut s = false) as [Hn Ht].
  { apply (run_preserves inv
             (fun x => timeoutId x = NoTimer /\ timedOut x = false))
      with trace s0; [|done|done].
    intros ????. by apply step_no_timer. }
  destruct (signal_since_start _ _ _ _ _ _ _ _ _ Hrun Htrace) as [Hk _].
  rewrite Ht in Hk. repeat split; try done.
  unfold step. rewrite Hn. by destruct (spawned inv) as [[??]|].
Qed.

(** X5. At any moment of any invocation the child has been sent
    SIGTERM exactly once if the invocation has timed out, and no signal
    at all if it has not: [runCommand] never signals the child for
    another reason, and never twice. *)
Theorem X5_sigterm_once_and_only_on_timeout host world command args options
    inv s0 trace s :
  runCommand path_join host world command args options = (inv, s0) ->
  run inv s0 trace = Some s ->
  kills s = (if timedOut s then ["SIGTERM"] else []).
Proof. intros Hrun Htrace. by eapply signal_since_start. Qed.

(** X6. A timeout is not switched off by [detached]: in a detached
    invocation with a timeout the timer is armed when the call
    resolves, and when it fires the background child is sent SIGTERM
    while the call stays resolved with its first result. *)
Theorem X6_detached_child_is_killed_on_timeout host world command args options
    inv s0 call child ms :
  runCommand path_join host world command args options = (inv, s0) ->
  opt_detached options = Some true ->
  opt_timeout options = Some ms -> ms <> 0%Z ->
  spawned inv = Some (call, child) ->
  timeoutId s0 = Armed
  /\ exists r s1,
       promise s0 = Resolved r
       /\ step inv s0 EvTimeout = Some s1
       /\ kills s1 = ["SIGTERM"]
       /\ promise s1 = Resolved r.
Proof.
  intros Hrun Hdet Hms Hnz Hsp.
  destruct (runCommand_initial _ _ _ _ _ _ _ _ Hrun)
    as (HtO & _ & Hks & _ & _ & _ & Htimer).
  destruct (runCommand_config _ _ _ _ _ _ _ _ Hrun) as [Hcfg _].
  assert (timeoutId s0 = Armed) as Harmed.
  { rewrite (Htimer _ _ Hsp), Hcfg. unfold destructure; simpl.
    rewrite Hms. by destruct ms. }
  split; [done|].
  assert (exists r, promise s0 = Resolved r) as [r Hr].
  { clear Htimer. unfold runCommand in Hrun.
    assert (detached (destructure host options) = true) as Hd
      by (unfold destructure; simpl; by rewrite Hdet).
    rewrite Hd in Hrun.
    repeat (case_match; simplify_eq/=); crush_handlers; by eexists. }
  exists r, (on_timeout inv s0). split; [done|]. split.
  - unfold step. by rewrite Hsp, Harmed.
  - destruct s0; simpl in *; subst. crush_handlers.
Qed.

End Signals.

Lemma X4_no_timeout_never_kills_witness :
  exists s,
    run (fst Scenario.failing) (snd Scenario.failing)
      [EvStdout "a"; EvExit (Some 3%Z) None] = Some s
    /\ kills s = [] /\ timedOut s = false.
Proof.
  eexists. split; [reflexivity|].
  destruct (X4_no_timeout_never_kills Scenario.path_join Scenario.host
              Scenario.world "sh" ["-c"; "echo oops >&2; exit 3"] Scenario.quiet
              (fst Scenario.failing) (snd Scenario.failing)
              [EvStdout "a"; EvExit (Some 3%Z) None] _ eq_refl
              (or_introl eq_refl) eq_refl) as (Hk & Ht & _).
  split; [exact Hk | exact Ht].
Defined.

Lemma X5_sigterm_once_and_only_on_timeout_witness :
  exists s,
    run (fst Scenario.sleep_10) (snd Scenario.sleep_10)
      [EvTimeout; EvExit None (Some "SIGTERM"); EvError (new_Error "late")]
      = Some s
    /\ kills s = ["SIGTERM"].
Proof.
  eexists. split; [reflexivity|].
  exact (X5_sigterm_once_and_only_on_timeout Scenario.path_join Scenario.host
           Scenario.world "sleep" ["10"] Scenario.sleep_options
           (fst Scenario.sleep_10) (snd Scenario.sleep_10)
           [EvTimeout; EvExit None (Some "SIGTERM"); EvError (new_Error "late")]
           _ eq_refl eq_refl).
Defined.

Lemma X6_detached_child_is_killed_on_timeout_witness :
  exists r s1,
    promise
      (snd (runCommand Scenario.path_join Scenario.host Scenario.world
              "sleep" ["60"] Cases.background_with_timeout)) = Resolved r
    /\ step
         (fst (runCommand Scenario.path_join Scenario.host Scenario.world
                 "sleep" ["60"] Cases.background_with_timeout))
         (snd (runCommand Scenario.path_join Scenario.host Scenario.world
                 "sleep" ["60"] Cases.background_with_timeout))
         EvTimeout = Some s1
    /\ kills s1 = ["SIGTERM"] /\ promise s1 = Resolved r.
Proof.
  destruct (X6_detached_child_is_killed_on_timeout Scenario.path_join
              Scenario.host Scenario.world "sleep" ["60"]
              Cases.background_with_timeout _ _ _ Scenario.child 1000%Z
              eq_refl eq_refl eq_refl ltac:(discriminate) eq_refl)
    as (_ & r & s1 & H).
  exists r, s1. exact H.
Defined.

(** ** The console and the log file *)

Section Quiet.

Variable path_join : string -> string -> string.

(** Without [saveLog] nothing is written and nothing waits to be. *)
Lemma step_no_log inv s ev s' :
  saveLog (config inv) = false ->
  writes s = [] /\ logfile s = [] /\ unhandled s = [] ->
  step inv s ev = Some s' ->
  writes s' = [] /\ logfile s' = [] /\ unhandled s' = [].
Proof.
  intros Hsave (Hw & Hl & Hu). unfold step.
  destruct (spawned inv) as [[call child]|]; [|done].
  destruct s as [out err tO tid p st ks con lf ws un]; simpl in *. subst.
  destruct ev; intros Hs; handlers; rewrite ?Hsave in *;
    repeat (case_match; simplify_eq/=); simpl in *; done.
Qed.

(** X8. Without [saveLog] the session log does not exist for the
    invocation: no directory is made, and at any moment nothing has
    been written to a log, no write is pending, and (once a child is
    spawned) no rejection is left unhandled; a result the call resolves
    with has neither [sessionId] nor [logFile]. *)
Theorem X8_no_saveLog_no_log host world command args options
    inv s0 trace s :
  runCommand path_join host world command args options = (inv, s0) ->
  opt_saveLog options = None \/ opt_saveLog options = Some false ->
  run inv s0 trace = Some s ->
  made_dir inv = None /\ Logger.logFile (logger inv) = None
  /\ logfile s = [] /\ writes s = []
  /\ (spawned inv <> None -> unhandled s = [])
  /\ (forall r, promise s = Resolved r ->
        r_sessionId r = None /\ r_logFile r = None).
Proof.
  intros Hrun Hopt Htrace.
  destruct (runCommand_config _ _ _ _ _ _ _ _ Hrun) as [Hcfg _].
  assert (saveLog (config inv) = false) as Hsave
    by (rewrite Hcfg; unfold destructure; simpl; by destruct Hopt as [-> | ->]).
  assert (made_dir inv = None /\ Logger.logFile (logger inv) = None
          /\ logfile s0 = [] /\ writes s0 = []
          /\ (spawned inv <> None -> unhandled s0 = [])
          /\ (forall r, promise s0 = Resolved r ->
                r_sessionId r = None /\ r_logFile r = None))
    as (Hdir & Hfile & Hl0 & Hw0 & Hu0 & Hr0).
  { clear Htrace. rewrite Hcfg in Hsave. unfold runCommand in Hrun.
    rewrite Hsave in Hrun. rewrite andb_true_r in Hrun.
    destruct (spawn world _) as [c|e]; simplify_eq/=;
      split_and!; try (intros res Hres); crush_handlers. }
  split; [done|]. split; [done|].
  destruct (spawned inv) as [[call child]|] eqn:Hsp.
  - assert ((writes s = [] /\ logfile s = [] /\ unhandled s = [])
            /\ (forall r, promise s = Resolved r ->
                  r_sessionId r = None /\ r_logFile r = None))
      as [(Hw & Hl & Hu) Hr].
    { apply (run_preserves inv
               (fun x => (writes x = [] /\ logfile x = [] /\ unhandled x = [])
                         /\ (forall r, promise x = Resolved r ->
                               r_sessionId r = None /\ r_logFile r = None)))
        with trace s0; [| |done].
      - intros x ev x' [Hx Hrx] Hstep. split; [by eapply step_no_log|].
        clear Hr0. unfold step in Hstep. rewrite Hsp in Hstep.
        destruct x as [out err tO tid p st ks con lf ws un]; simpl in *.
        destruct Hx as (-> & -> & ->).
        destruct ev; intros res Hres; rewrite ?Hsave in *; crush_handlers;
          eauto.
      - split; [|done]. repeat split; try done. by apply Hu0. }
    repeat split; try done; by apply Hr.
  - apply run_without_child in Htrace as [_ ->]; [|done].
    repeat split; try done; by apply Hr0.
Qed.

(** With [logging] and [logToConsole] off the console only gets the
    reports of failed writes. *)
Lemma step_quiet inv s ev s' :
  logging (config inv) = false ->
  Logger.logToConsole (logger inv) = false ->
  Forall (fun line => exists e,
            line = (process_stderr,
                    ("Log write error: " +:+ message e) +:+ String LF ""))
    (console s) ->
  step inv s ev = Some s' ->
  Forall (fun line => exists e,
            line = (process_stderr,
                    ("Log write error: " +:+ message e) +:+ String LF ""))
    (console s').
Proof.
  intros Hlog HtoC Hq. unfold step.
  destruct (spawned inv) as [[call child]|]; [|done].
  destruct s as [out err tO tid p st ks con lf ws un]; simpl in *.
  destruct ev; intros Hs; handlers; rewrite ?Hlog, ?HtoC in *;
    repeat (case_match; simplify_eq/=); simpl in *; try done.
  apply Forall_app. split; [done|]. apply Forall_singleton. by eexists.
Qed.

(** X7. With [logging: false] (and [logToConsole] not switched on)
    [runCommand] is silent: at any moment the only lines it has put on
    the console are "Log write error: ..." reports on stderr for failed
    writes of chunks, and without [saveLog] the console has nothing
    from it at all. *)
Theorem X7_logging_off_is_silent host world command args options
    inv s0 trace s :
  runCommand path_join host world command args options = (inv, s0) ->
  opt_logging options = Some false ->
  opt_logToConsole options = None \/ opt_logToConsole options = Some false ->
  run inv s0 trace = Some s ->
  Forall (fun line => exists e,
            line = (process_stderr,
                    ("Log write error: " +:+ message e) +:+ String LF ""))
    (console s)
  /\ (opt_saveLog options = None \/ opt_saveLog options = Some false ->
      console s = []).
Proof.
  intros Hrun Hlog HtoC Htrace.
  destruct (runCommand_config _ _ _ _ _ _ _ _ Hrun) as [Hcfg _].
  destruct (runCommand_logger _ _ _ _ _ _ _ _ Hrun) as (_ & HL & _).
  assert (logging (config inv) = false) as Hlg
    by (rewrite Hcfg; unfold destructure; simpl; by rewrite Hlog).
  assert (Logger.logToConsole (logger inv) = false) as HtC.
  { rewrite HL, Hcfg. unfold destructure; simpl. rewrite Hlog.
    by destruct HtoC as [-> | ->]. }
  assert (console s0 = []) as Hc0.
  { clear Htrace. rewrite Hcfg in Hlg. unfold runCommand in Hrun.
    rewrite Hlg in Hrun. simpl in Hrun.
    repeat (case_match; simplify_eq/=); crush_handlers. }
  split.
  - apply (run_preserves inv
             (fun x => Forall (fun line => exists e,
                         line = (process_stderr,
                                 ("Log write error: " +:+ message e)
                                   +:+ String LF "")) (console x)))
      with trace s0; [|by rewrite Hc0|done].
    intros ????. by apply step_quiet.
  - intros Hsave.
    assert (saveLog (config inv) = false) as Hs
      by (rewrite Hcfg; unfold destructure; simpl; by destruct Hsave as [-> | ->]).
    apply (run_preserves inv (fun x => console x = [] /\ writes x = []))
      with trace s0; [| |done].
    + intros x ev x' [Hx Hw] Hstep. unfold step in Hstep.
      destruct (spawned inv) as [[call child]|]; [|done].
      destruct x as [out err tO tid p st ks con lf ws un]; simpl in *. subst.
      destruct ev; handlers; rewrite ?Hlg, ?Hs in *;
        repeat (case_match; simplify_eq/=); simpl in *; done.
    + split; [done|].
      by destruct (runCommand_initial _ _ _ _ _ _ _ _ Hrun) as (_ & ? & _).
Qed.

End Quiet.

Lemma X8_no_saveLog_no_log_witness :
  exists s r,
    run (fst Scenario.failing) (snd Scenario.failing)
      [EvStdout "ok"; EvExit (Some 0%Z) None] = Some s
    /\ logfile s = [] /\ writes s = []
    /\ promise s = Resolved r /\ r_sessionId r = None.
Proof.
  eexists _, _. split; [reflexivity|].
  destruct (X8_no_saveLog_no_log Scenario.path_join Scenario.host
              Scenario.world "sh" ["-c"; "echo oops >&2; exit 3"] Scenario.quiet
              (fst Scenario.failing) (snd Scenario.failing)
              [EvStdout "ok"; EvExit (Some 0%Z) None] _ eq_refl
              (or_introl eq_refl) eq_refl) as (_ & _ & Hl & Hw & _ & Hr).
  split; [exact Hl|]. split; [exact Hw|]. split; [reflexivity|].
  exact (proj1 (Hr _ eq_refl)).
Defined.

Lemma X7_logging_off_is_silent_witness :
  exists s,
    run (fst Scenario.failing) (snd Scenario.failing)
      [EvStdout "ok"; EvStderr "oops"; EvExit (Some 3%Z) None] = Some s
    /\ console s = [].
Proof.
  eexists. split; [reflexivity|].
  destruct (X7_logging_off_is_silent Scenario.path_join Scenario.host
              Scenario.world "sh" ["-c"; "echo oops >&2; exit 3"] Scenario.quiet
              (fst Scenario.failing) (snd Scenario.failing)
              [EvStdout "ok"; EvStderr "oops"; EvExit (Some 3%Z) None] _
              eq_refl eq_refl (or_introl eq_refl) eq_refl) as [_ Hc].
  exact (Hc (or_introl eq_refl)).
Defined.

Section LogFile.

Variable path_join : string -> string -> string.

Lemma on_exit_log inv code signal s :
  logfile (on_exit inv code signal s) = logfile s
  /\ (writes (on_exit inv code signal s) = writes s
      \/ writes (on_exit inv code signal s)
         = writes s ++ [mkWrite (Logger.session_end code signal)
                          (KExit code signal)]).
Proof.
  unfold on_exit, logExit, writeLog.
  pose proof (resume_frame inv (KExit code signal) None (clearTimeout s))
    as (_ & _ & Hw & Hl & _).
  change (resume inv (KExit code signal) None (clearTimeout s))
    with (exit_resume inv code signal (clearTimeout s)) in *.
  assert (logfile (clearTimeout s) = logfile s
          /\ writes (clearTimeout s) = writes s) as (H1 & H2)
    by (destruct s as [? ? ? tid ? ? ? ? ? ? ?]; by destruct tid).
  destruct (timedOut (clearTimeout s)); [auto|].
  destruct (saveLog (config inv)), (Logger.writes_nothing (logger inv));
    cbv iota beta; rewrite ?Hw, ?Hl; simpl; rewrite ?H1, ?H2; auto.
Qed.

Lemma on_error_log inv e s :
  logfile (on_error inv e s) = logfile s
  /\ (writes (on_error inv e s) = writes s
      \/ writes (on_error inv e s)
         = writes s ++ [mkWrite (Logger.error_entry (message e)) (KError e)]).
Proof.
  unfold on_error, logError, writeLog.
  pose proof (resume_frame inv (KError e) None (clearTimeout s))
    as (_ & _ & Hw & Hl & _).
  change (resume inv (KError e) None (clearTimeout s))
    with (error_resume inv e (clearTimeout s)) in *.
  assert (logfile (clearTimeout s) = logfile s
          /\ writes (clearTimeout s) = writes s) as (H1 & H2)
    by (destruct s as [? ? ? tid ? ? ? ? ? ? ?]; by destruct tid).
  destruct (saveLog (config inv)), (Logger.writes_nothing (logger inv));
    cbv iota beta; rewrite ?Hw, ?Hl; simpl; rewrite ?H1, ?H2; auto.
Qed.

(** What a handler asks the logger to write is never a session_start
    entry, and with a level other than 'full' never a chunk. *)
Lemma step_log_grows inv s ev s' :
  Forall (fun w => is_start (w_entry w) = false) (writes s) ->
  step inv s ev = Some s' ->
  Forall (fun w => is_start (w_entry w) = false) (writes s')
  /\ exists more,
       logfile s' = logfile s ++ more
       /\ Forall (fun e => is_start e = false) more.
Proof.
  intros Hw. unfold step.
  destruct (spawned inv) as [[call child]|]; [|done].
  destruct ev as [data|data|e|code signal| |i r]; intros Hs.
  - destruct s; simpl in *. crush_handlers;
      (split; [|exists []; by rewrite app_nil_r]);
      try done; apply Forall_app; split; auto.
  - destruct s; simpl in *. crush_handlers;
      (split; [|exists []; by rewrite app_nil_r]);
      try done; apply Forall_app; split; auto.
  - simplify_eq. destruct (on_error_log inv e s) as [Hl [Hws | Hws]];
      rewrite Hl, Hws; (split; [|exists []; by rewrite app_nil_r]);
      try done; apply Forall_app; split; auto.
  - simplify_eq. destruct (on_exit_log inv code signal s) as [Hl [Hws | Hws]];
      rewrite Hl, Hws; (split; [|exists []; by rewrite app_nil_r]);
      try done; apply Forall_app; split; auto.
  - destruct s; simpl in *. crush_handlers.
    split; [done|]. exists []. by rewrite app_nil_r.
  - destruct (writes s !! i) as [w|] eqn:Hi; [|done]. simplify_eq.
    unfold on_written.
    set (s1 := match r with None => _ | Some _ => _ end).
    destruct (resume_frame inv (w_then w) r s1) as (_ & _ & Hws & Hlf & _).
    rewrite Hws, Hlf.
    assert (is_start (w_entry w) = false) as Hnot.
    { rewrite Forall_forall in Hw. apply Hw. by eapply list_elem_of_lookup_2. }
    split.
    + assert (writes s1 = delete i (writes s)) as -> by (subst s1; by destruct r).
      rewrite delete_take_drop. apply Forall_app.
      split; [by apply Forall_take | by apply Forall_drop].
    + subst s1. destruct r; simpl.
      * exists []. by rewrite app_nil_r.
      * exists [w_entry w]. split; [done|]. by apply Forall_singleton.
Qed.

Lemma run_log_grows inv trace s s' :
  Forall (fun w => is_start (w_entry w) = false) (writes s) ->
  run inv s trace = Some s' ->
  Forall (fun w => is_start (w_entry w) = false) (writes s')
  /\ exists more,
       logfile s' = logfile s ++ more
       /\ Forall (fun e => is_start e = false) more.
Proof.
  revert s. induction trace as [|ev trace IH]; intros s Hw; simpl.
  - intros [= <-]. split; [done|]. exists []. by rewrite app_nil_r.
  - destruct (step inv s ev) as [s1|] eqn:Hstep; [|done]. intros Hrun.
    destruct (step_log_grows _ _ _ _ Hw Hstep) as (Hw1 & m1 & Hl1 & Hm1).
    destruct (IH _ Hw1 Hrun) as (Hw2 & m2 & Hl2 & Hm2).
    split; [done|]. exists (m1 ++ m2). rewrite Hl2, Hl1, app_assoc.
    split; [done|]. by apply Forall_app.
Qed.

(** X9. The session log only grows, and it has one session_start
    entry, at its head: at any moment the log is what [initialize]
    wrote (with [saveLog] and an open log file, the session_start entry
    with the session id, the command, its arguments, and the working
    directory and pid of the host process) followed by entries that are
    not session_start entries. *)
Theorem X9_log_is_append_only host world command args options
    inv s0 trace s :
  runCommand path_join host world command args options = (inv, s0) ->
  run inv s0 trace = Some s ->
  (exists more,
     logfile s = logfile s0 ++ more
     /\ Forall (fun e => is_start e = false) more)
  /\ (opt_saveLog options = Some true ->
      spawned inv <> None ->
      Logger.writes_nothing (logger inv) = false ->
      logfile s0 = [Logger.session_start (Logger.sessionId (logger inv))
                      command args (process_cwd host) (process_pid host)]).
Proof.
  intros Hrun Htrace.
  destruct (runCommand_initial _ _ _ _ _ _ _ _ Hrun) as (_ & Hw0 & _).
  split.
  - apply (run_log_grows inv trace s0 s); [by rewrite Hw0 | done].
  - intros Hsave Hsp Hwn. clear Htrace. unfold runCommand in Hrun.
    assert (saveLog (destructure host options) = true) as Hs
      by (unfold destructure; simpl; by rewrite Hsave).
    rewrite Hs in Hrun. unfold initialize in Hrun. simpl in Hrun.
    destruct (mkdir world); [by simplify_eq/=|].
    destruct (Logger.writes_nothing (Logger.open_logFile _ _ _)) eqn:Hopen.
    + destruct (spawn world _); simplify_eq/=. congruence.
    + destruct (first_write world); [by simplify_eq/=|].
      destruct (spawn world _); simplify_eq/=.
      crush_handlers.
Qed.

(** What the logger has written and is about to write holds no chunk
    when its level is not 'full'. *)
Lemma step_no_chunks inv s ev s' :
  Logger.logLevel (logger inv) <> "full" ->
  Forall (fun w => is_chunk (w_entry w) = false) (writes s)
  /\ Forall (fun e => is_chunk e = false) (logfile s) ->
  step inv s ev = Some s' ->
  Forall (fun w => is_chunk (w_entry w) = false) (writes s')
  /\ Forall (fun e => is_chunk e = false) (logfile s').
Proof.
  intros Hlevel [Hw Hl]. unfold step.
  assert (String.eqb (Logger.logLevel (logger inv)) "full" = false) as Hne
    by (by apply String.eqb_neq).
  destruct (spawned inv) as [[call child]|]; [|done].
  destruct ev as [data|data|e|code signal| |i r]; intros Hs.
  - destruct s; simpl in *. handlers. rewrite ?Hne in *.
    repeat (case_match; simplify_eq/=); simpl in *; done.
  - destruct s; simpl in *. handlers. rewrite ?Hne in *.
    repeat (case_match; simplify_eq/=); simpl in *; done.
  - simplify_eq. destruct (on_error_log inv e s) as [Hlf [Hws | Hws]];
      rewrite Hlf, Hws; split; try done; apply Forall_app; split; auto.
  - simplify_eq. destruct (on_exit_log inv code signal s) as [Hlf [Hws | Hws]];
      rewrite Hlf, Hws; split; try done; apply Forall_app; split; auto.
  - destruct s; simpl in *. crush_handlers.
  - destruct (writes s !! i) as [w|] eqn:Hi; [|done]. simplify_eq.
    unfold on_written.
    set (s1 := match r with None => _ | Some _ => _ end).
    destruct (resume_frame inv (w_then w) r s1) as (_ & _ & Hws & Hlf & _).
    rewrite Hws, Hlf.
    assert (is_chunk (w_entry w) = false) as Hnot.
    { rewrite Forall_forall in Hw. apply Hw. by eapply list_elem_of_lookup_2. }
    split.
    + assert (writes s1 = delete i (writes s)) as -> by (subst s1; by destruct r).
      rewrite delete_take_drop. apply Forall_app.
      split; [by apply Forall_take | by apply Forall_drop].
    + subst s1. destruct r; simpl; [done|].
      apply Forall_app. split; [done|]. by apply Forall_singleton.
Qed.

(** X10. With a [logLevel] other than 'full' (and not the empty string,
    which stands for 'full') the logger keeps the chunks of output out
    of the session log: at any moment no stdout or stderr entry has
    been written to it or waits to be written. The chunks are still
    captured for the caller. *)
Theorem X10_reduced_level_logs_no_chunks host world command args options
    inv s0 trace s level :
  runCommand path_join host world command args options = (inv, s0) ->
  opt_logLevel options = Some level -> level <> "" -> level <> "full" ->
  run inv s0 trace = Some s ->
  Forall (fun e => is_chunk e = false) (logfile s)
  /\ Forall (fun w => is_chunk (w_entry w) = false) (writes s)
  /\ stdout s = chunks_out trace /\ stderr s = chunks_err trace.
Proof.
  intros Hrun Hlevel Hne Hnf Htrace.
  destruct (runCommand_config _ _ _ _ _ _ _ _ Hrun) as [Hcfg _].
  destruct (runCommand_logger _ _ _ _ _ _ _ _ Hrun) as (_ & _ & HL).
  assert (Logger.logLevel (logger inv) <> "full") as Hlv.
  { rewrite HL, Hcfg. unfold destructure; simpl. rewrite Hlevel; simpl.
    unfold or_else. by destruct level. }
  destruct (runCommand_initial _ _ _ _ _ _ _ _ Hrun) as (_ & Hw0 & _).
  assert (Forall (fun e => is_chunk e = false) (logfile s0)) as Hl0.
  { clear Htrace. unfold runCommand, initialize in Hrun.
    repeat (case_match; simplify_eq/=); crush_handlers;
      repeat constructor. }
  destruct (captured_since_start _ _ _ _ _ _ _ _ _ _ Hrun Htrace) as [Ho He].
  assert (Forall (fun w => is_chunk (w_entry w) = false) (writes s)
          /\ Forall (fun e => is_chunk e = false) (logfile s)) as [Hw Hl].
  { apply (run_preserves inv
             (fun x => Forall (fun w => is_chunk (w_entry w) = false) (writes x)
                       /\ Forall (fun e => is_chunk e = false) (logfile x)))
      with trace s0; [| |done].
    - intros ????. by apply step_no_chunks.
    - by rewrite Hw0. }
  done.
Qed.

(** X11. With [saveLog], when the child was spawned, the log file of
    the invocation is [<logDir>/<date>/session-<Date.now()>-<pid>.log],
    in the directory [<logDir>/<date>] that [initialize] makes. An
    absent (or empty) [logDir] is [claude-spawn-logs] under the working
    directory of the host process, whatever the [cwd] option says. *)
Theorem X11_log_file_path host world command args options inv s0 call child :
  runCommand path_join host world command args options = (inv, s0) ->
  opt_saveLog options = Some true ->
  spawned inv = Some (call, child) ->
  let logDir :=
    match opt_logDir options with
    | Some dir => if decide (dir = "") 
                  then path_join (process_cwd host) "claude-spawn-logs"
                  else dir
    | None => path_join (process_cwd host) "claude-spawn-logs"
    end in
  made_dir inv = Some (path_join logDir (today world))
  /\ Logger.logFile (logger inv)
     = Some (path_join (path_join logDir (today world))
               ("session-" +:+ pretty (now world) +:+ "-"
                  +:+ pretty (process_pid host) +:+ ".log")).
Proof.
  intros Hrun Hsave Hsp. simpl.
  unfold runCommand in Hrun.
  assert (saveLog (destructure host options) = true) as Hs
    by (unfold destructure; simpl; by rewrite Hsave).
  rewrite Hs in Hrun. unfold initialize in Hrun. simpl in Hrun.
  assert (or_default (opt_logDir options)
            (path_join (process_cwd host) "claude-spawn-logs")
          = match opt_logDir options with
            | Some dir => if decide (dir = "")
                          then path_join (process_cwd host) "claude-spawn-logs"
                          else dir
            | None => path_join (process_cwd host) "claude-spawn-logs"
            end) as Hdir.
  { destruct (opt_logDir options) as [[|c d]|]; simpl; try done. }
  destruct (mkdir world); [by simplify_eq/=|].
  destruct (Logger.writes_nothing (Logger.open_logFile _ _ _)).
  - destruct (spawn world _); simplify_eq/=.
    unfold Logger.dateDir, Logger.make_sessionId, show_N; simpl.
    by rewrite Hdir, !append_assoc.
  - destruct (first_write world); [by simplify_eq/=|].
    destruct (spawn world _); simplify_eq/=.
    unfold Logger.dateDir, Logger.make_sessionId, show_N; simpl.
    by rewrite Hdir, !append_assoc.
Qed.

End LogFile.

Lemma X9_log_is_append_only_witness :
  exists s more,
    run (fst Scenario.echo_logged) (snd Scenario.echo_logged)
      (Scenario.echo_events None) = Some s
    /\ logfile s = logfile (snd Scenario.echo_logged) ++ more
    /\ Forall (fun e => is_start e = false) more.
Proof.
  destruct (run (fst Scenario.echo_logged) (snd Scenario.echo_logged)
              (Scenario.echo_events None)) as [s|] eqn:Hrun;
    [|vm_compute in Hrun; discriminate].
  destruct (X9_log_is_append_only Scenario.path_join Scenario.host
              Scenario.world "echo" ["hello"] Scenario.persisted
              (fst Scenario.echo_logged) (snd Scenario.echo_logged)
              (Scenario.echo_events None) s eq_refl Hrun)
    as [(more & Hl & Hm) _].
  exists s, more. split; [reflexivity|]. split; [exact Hl | exact Hm].
Defined.

Lemma X10_reduced_level_logs_no_chunks_witness :
  exists s,
    run (fst Cases.make) (snd Cases.make)
      [EvStdout "cc -c main.c"; EvExit (Some 0%Z) None; EvWritten 0 None]
      = Some s
    /\ Logger.type <$> logfile s = ["session_start"; "session_end"]
    /\ stdout s = "cc -c main.c".
Proof.
  eexists. split; [reflexivity|]. split; [reflexivity|].
  destruct (X10_reduced_level_logs_no_chunks Scenario.path_join Scenario.host
              Scenario.world "make" [] Cases.minimal_log
              (fst Cases.make) (snd Cases.make)
              [EvStdout "cc -c main.c"; EvExit (Some 0%Z) None; EvWritten 0 None]
              _ "minimal" eq_refl eq_refl ltac:(discriminate)
              ltac:(discriminate) eq_refl) as (_ & _ & Ho & _).
  exact Ho.
Defined.

Lemma X11_log_file_path_witness :
  Logger.logFile (logger (fst Cases.make))
  = Some "/home/dev/app/claude-spawn-logs/2025-01-21/session-1737450000000-4242.log".
Proof.
  destruct (X11_log_file_path Scenario.path_join Scenario.host
              Scenario.world "make" [] Cases.minimal_log
              (fst Cases.make) (snd Cases.make) _ Scenario.child
              eq_refl eq_refl eq_refl) as [_ Hf].
  exact Hf.
Defined.

(** * runClaude and runClaudeTask *)

Section ClaudeCalls.

Variable path_join : string -> string -> string.

(** What the executor records about the child. *)
Lemma runCommand_child host world command args options inv s call child :
  runCommand path_join host world command args options = (inv, s) ->
  spawned inv = Some (call, child) ->
  stdin_ended inv = String.eqb command "claude" && has_stdin child
  /\ unrefd inv = detached (destructure host options).
Proof.
  unfold runCommand. intros Hrun Hsp.
  destruct (if saveLog _ then _ else _) as [lg dir file|lg dir e];
    [|by simplify_eq/=].
  destruct (spawn world _) as [c|e]; by simplify_eq/=.
Qed.


(** X12. [runClaude] spawns the command [claude] with the arguments
    [-p], then [--dangerously-skip-permissions] unless the option of
    that name is false, then the prompt as one last argument, unsplit;
    the working directory is the [cwd] option or else that of the host
    process; the environment of the child has no CLAUDECODE; and the
    stdin of the child is ended at once whenever the child has one. *)
Theorem X12_runClaude_spawn_call host world prompt options inv s0 call child :
  Claude.runClaude path_join host world prompt options = (inv, s0) ->
  spawned inv = Some (call, child) ->
  sp_command call = "claude"
  /\ sp_args call
     = "-p" :: (if default true (Claude.opt_dangerouslySkipPermissions options)
                then ["--dangerously-skip-permissions"; prompt]
                else [prompt])
  /\ last (sp_args call) = Some prompt
  /\ sp_cwd call = default (process_cwd host) (Claude.opt_cwd options)
  /\ sp_env call !! "CLAUDECODE" = None
  /\ stdin_ended inv = has_stdin child.
Proof.
  unfold Claude.runClaude. intros Hrun Hsp.
  destruct (runCommand_spawned _ _ _ _ _ _ _ _ _ _ Hrun Hsp) as (-> & _ & _).
  destruct (runCommand_child _ _ _ _ _ _ _ _ _ Hrun Hsp) as (Hin & _).
  simpl. unfold Claude.claude_args, Claude.command_options.
  split_and!; try done.
  - by destruct (default true _).
  - by destruct (default true _).
  - by destruct (default false (Claude.opt_fireAndForget options)).
  - apply lookup_delete_eq.
Qed.



End ClaudeCalls.

Lemma X12_runClaude_spawn_call_witness :
  exists call,
    spawned (fst (Claude.runClaude Scenario.path_join Scenario.host
                    Scenario.world "Summarise the diff" Claude.no_options))
      = Some (call, Scenario.child)
    /\ sp_args call
       = ["-p"; "--dangerously-skip-permissions"; "Summarise the diff"]
    /\ sp_env call !! "CLAUDECODE" = None.
Proof.
  eexists. split; [reflexivity|].
  destruct (X12_runClaude_spawn_call Scenario.path_join Scenario.host
              Scenario.world "Summarise the diff" Claude.no_options _ _ _
              Scenario.child eq_refl eq_refl) as (_ & Ha & _ & _ & He & _).
  split; [exact Ha | exact He].
Defined.



(** * The first version of runCommand *)

Section FirstVersion.

Variable path_join : string -> string -> string.

(** Without a child no event reaches an invocation of the first
    version. *)
Lemma legacy_run_without_child inv s trace s' :
  spawned inv = None ->
  Legacy.run inv s trace = Some s' -> trace = [] /\ s' = s.
Proof.
  intros Hsp. destruct trace as [|ev trace]; simpl.
  - intros [= <-]. done.
  - unfold Legacy.step. by rewrite Hsp.
Qed.

(** X15. In the first version of [runCommand], whose executor is not
    [async], a command that [spawn] refuses by throwing rejects the
    call with the error thrown: no child is spawned, nothing is left
    unhandled, and the rejection is final. *)
Theorem X15_first_version_rejects_a_throw host world command args options
    inv s0 e :
  Legacy.runCommand host world command args options = (inv, s0) ->
  spawn world
    (mkSpawnCall command args
       (default (process_cwd host) (opt_cwd options))
       (default (process_env host) (opt_env options))
       (default false (opt_detached options))
       (default (StdioString "pipe") (opt_stdio options)))
    = SpawnThrows e ->
  promise s0 = Rejected e /\ spawned inv = None /\ unhandled s0 = []
  /\ forall trace s,
       Legacy.run inv s0 trace = Some s -> promise s = Rejected e.
Proof.
  unfold Legacy.runCommand. intros Hrun Hthrow. simpl in Hrun.
  rewrite Hthrow in Hrun. simplify_eq/=.
  assert (promise
            (settle (reject e)
               (if default true (opt_logging options)
                then console_log
                       ("[Claude Spawn] Working directory: "
                          +:+ default (process_cwd host) (opt_cwd options))
                       (console_log
                          ("[Claude Spawn] Executing: " +:+ command +:+ " "
                             +:+ join " " args) initial)
                else initial)) = Rejected e) as Hp by crush_handlers.
  split_and!; try done.
  - crush_handlers.
  - intros trace s Htrace.
    apply legacy_run_without_child in Htrace as [_ ->]; done.
Qed.

(** The handlers of the first version against those of the second
    without [saveLog]: with the same [logging], [stdio], [timeout] and
    child, and no write of a log pending, one event takes both from a
    state to the same state. *)
Lemma legacy_step_agrees inv1 inv2 s ev :
  saveLog (config inv2) = false ->
  logging (config inv1) = logging (config inv2) ->
  stdio (config inv1) = stdio (config inv2) ->
  timeout (config inv1) = timeout (config inv2) ->
  snd <$> spawned inv1 = snd <$> spawned inv2 ->
  writes s = [] ->
  Legacy.step inv1 s ev = step inv2 s ev.
Proof.
  intros Hs2 Hlog Hio Hto Hsp Hw. unfold Legacy.step, step.
  destruct (spawned inv1) as [[call1 child1]|] eqn:H1,
    (spawned inv2) as [[call2 child2]|] eqn:H2; simplify_eq/=; [|done].
  rewrite <- Hio.
  destruct ev as [data|data|e|code signal| |i r].
  - unfold Legacy.on_stdout, on_stdout. by rewrite Hs2, Hlog.
  - unfold Legacy.on_stderr, on_stderr. by rewrite Hs2, Hlog.
  - unfold Legacy.on_error, on_error, error_resume.
    by rewrite Hs2, Hlog, andb_true_r.
  - unfold Legacy.on_exit, on_exit, exit_resume.
    rewrite Hs2, Hlog, H1, H2, andb_true_r.
    destruct (timedOut (clearTimeout s)); [done|].
    by destruct (is_zero code).
  - unfold Legacy.on_timeout, on_timeout. by rewrite Hto.
  - by rewrite Hw.
Qed.

(** X16. Without [saveLog] the second version of [runCommand] behaves
    as the first one whenever [spawn] returns the same child to both:
    the two executors leave the same state, and every trace of events
    takes the handlers of the first version and those of the second to
    the same state, hence to the same settlement, output and console
    (a trace one of them cannot take, the other cannot take either).
    What differs is what the child is given: the second version
    removes CLAUDECODE from its environment (the first passes the
    environment as it is) and ends the stdin of a [claude] child. *)
Theorem X16_second_version_agrees_with_first host world command args options
    inv1 s1 inv2 s2 call1 call2 child :
  Legacy.runCommand host world command args options = (inv1, s1) ->
  runCommand path_join host world command args options = (inv2, s2) ->
  opt_saveLog options = None \/ opt_saveLog options = Some false ->
  spawned inv1 = Some (call1, child) ->
  spawned inv2 = Some (call2, child) ->
  s1 = s2
  /\ (forall trace, Legacy.run inv1 s1 trace = run inv2 s2 trace)
  /\ sp_env call1 = default (process_env host) (opt_env options)
  /\ sp_env call2 = delete "CLAUDECODE" (sp_env call1)
  /\ stdin_ended inv1 = false.
Proof.
  intros Hrun1 Hrun2 Hsave Hsp1 Hsp2.
  assert (saveLog (destructure host options) = false) as Hs
    by (unfold destructure; simpl; by destruct Hsave as [-> | ->]).
  destruct (runCommand_spawned _ _ _ _ _ _ _ _ _ _ Hrun2 Hsp2)
    as (Hcall2 & Hw2 & Hcfg2).
  unfold runCommand in Hrun2. rewrite Hs in Hrun2.
  rewrite Hcall2 in Hw2. rewrite Hw2 in Hrun2. rewrite andb_true_r in Hrun2.
  unfold Legacy.runCommand in Hrun1.
  destruct (spawn world (mkSpawnCall _ _ _ (env (Legacy.destructure _ _)) _ _))
    as [c|e] eqn:Hw1; simplify_eq/=.
  split_and!; try done.
  - crush_handlers.
  - intros trace.
    match goal with |- Legacy.run ?i1 ?a _ = run ?i2 ?b _ =>
      assert (a = b) as -> by crush_handlers;
      assert (writes b = [] /\ logfile b = [] /\ unhandled b = []) as Hinv
        by crush_handlers;
      revert Hinv; generalize b
    end.
    induction trace as [|ev trace IH]; intros s Hinv; simpl; [done|].
    match goal with
    | |- match Legacy.step ?i1 s ev with _ => _ end
         = match step ?i2 s ev with _ => _ end =>
        rewrite (legacy_step_agrees i1 i2 s ev)
          by (simpl; try done; by rewrite ?Hs; try apply Hinv);
        destruct (step i2 s ev) as [s'|] eqn:Hstep; [|done];
        apply IH;
        apply (step_no_log i2 s ev s'); [simpl; by rewrite Hs | done | done]
    end.
Qed.

End FirstVersion.

Lemma X15_first_version_rejects_a_throw_witness :
  promise (snd (Legacy.runCommand Scenario.host Scenario.world "" []
                  no_options))
  = Rejected Scenario.ERR_INVALID_ARG_VALUE.
Proof.
  exact (proj1 (X15_first_version_rejects_a_throw Scenario.host Scenario.world
                  "" [] no_options _ _ Scenario.ERR_INVALID_ARG_VALUE
                  eq_refl eq_refl)).
Defined.

Lemma X16_second_version_agrees_with_first_witness :
  exists call1 call2,
    spawned (fst (Legacy.runCommand Scenario.host Scenario.world
                    "sh" ["-c"; "echo oops >&2; exit 3"] Scenario.quiet))
      = Some (call1, Scenario.child)
    /\ spawned (fst Scenario.failing) = Some (call2, Scenario.child)
    /\ Legacy.run (fst (Legacy.runCommand Scenario.host Scenario.world
                   "sh" ["-c"; "echo oops >&2; exit 3"] Scenario.quiet))
         (snd (Legacy.runCommand Scenario.host Scenario.world
                 "sh" ["-c"; "echo oops >&2; exit 3"] Scenario.quiet))
         [EvStderr "oops"; EvExit (Some 3%Z) None]
       = run (fst Scenario.failing) (snd Scenario.failing)
           [EvStderr "oops"; EvExit (Some 3%Z) None]
    /\ sp_env call1 !! "CLAUDECODE" = Some "1"
    /\ sp_env call2 !! "CLAUDECODE" = None.
Proof.
  eexists _, _. split; [reflexivity|]. split; [reflexivity|].
  destruct (X16_second_version_agrees_with_first Scenario.path_join
              Scenario.host Scenario.world "sh" ["-c"; "echo oops >&2; exit 3"]
              Scenario.quiet _ _ _ _ _ _ Scenario.child
              eq_refl eq_refl (or_introl eq_refl) eq_refl eq_refl)
    as (_ & Hrun & _).
  split; [exact (Hrun _)|]. split; by vm_compute.
Defined.

(** * More of the reader *)

Section ReaderMore.

Variable JSON_parse : string -> option json.
Variable path_join : string -> string -> string.

(** X17. When the log directory does not exist, [getRecentSessions]
    returns the empty list for every limit instead of failing, and
    [viewLog] fails with "Session <id> not found" for every id. *)
Theorem X17_missing_log_directory fs cwd logDir limit sid :
  fs !! logs_path path_join cwd logDir = None ->
  getRecentSessions JSON_parse path_join fs cwd logDir limit = Ok []
  /\ viewLog JSON_parse path_join fs cwd sid logDir
     = Throw (new_Error ("Session " +:+ sid +:+ " not found")).
Proof.
  intros Hno.
  assert (forall l d, logs_path path_join cwd d = logs_path path_join cwd logDir ->
            getRecentSessions JSON_parse path_join fs cwd d l = Ok []) as Hget.
  { intros l d Hd. unfold getRecentSessions, scan, readdir.
    rewrite Hd, Hno. simpl. try case_decide; done. }
  split; [by apply Hget|].
  unfold viewLog. rewrite Hget; [done|]. apply logs_path_again.
Qed.

(** A scan that starts without sessions and stops at the first one. *)
Lemma visit_file_first fs dateDir file :
  visit_file JSON_parse path_join fs 0 dateDir [] file
  = visit_file JSON_parse path_join fs 1 dateDir [] file
  /\ forall ss, visit_file JSON_parse path_join fs 1 dateDir [] file = Next ss ->
       ss = [].
Proof.
  unfold visit_file.
  destruct (endsWith file ".log"); [|split; [done|by intros ? [= <-]]].
  destruct (readFirstLine fs _) as [firstLine|e]; [|done].
  destruct (truthy firstLine); [|split; [done|by intros ? [= <-]]].
  destruct (JSON_parse firstLine) as [start|]; [|split; [done|by intros ? [= <-]]].
  destruct (prop start "type") as [|ty]; [split; [done|by intros ? [= <-]]|].
  destruct (strict_eq_string ty "session_start");
    [|split; [done|by intros ? [= <-]]].
  simpl. done.
Qed.

Lemma visit_files_first fs dateDir files :
  visit_files JSON_parse path_join fs 0 dateDir [] files
  = visit_files JSON_parse path_join fs 1 dateDir [] files
  /\ forall ss, visit_files JSON_parse path_join fs 1 dateDir [] files = Next ss ->
       ss = [].
Proof.
  induction files as [|file files [IH1 IH2]]; simpl; [split; [done|by intros ? [= <-]]|].
  destruct (visit_file_first fs dateDir file) as [-> Hn].
  destruct (visit_file JSON_parse path_join fs 1 dateDir [] file) as [ss|ss|ss e];
    [|done..].
  rewrite (Hn ss eq_refl). done.
Qed.

Lemma visit_dates_first fs logsPath dates :
  visit_dates JSON_parse path_join fs 0 logsPath [] dates
  = visit_dates JSON_parse path_join fs 1 logsPath [] dates.
Proof.
  induction dates as [|date dates IH]; simpl; [done|].
  unfold visit_date. destruct (readdir fs _) as [files|e]; [|done].
  destruct (visit_files_first fs (path_join logsPath date)
              (reverse (JS.sort files))) as [-> Hn].
  destruct (visit_files JSON_parse path_join fs 1 _ [] _) as [ss|ss|ss e];
    [|done..].
  rewrite (Hn ss eq_refl). done.
Qed.

(** X19. A limit of 0 does not give an empty list: the limit is only
    checked after a session is pushed, so [getRecentSessions] with
    limit 0 returns exactly what it returns with limit 1, the most
    recent session when there is one. *)
Theorem X19_limit_zero_is_limit_one fs cwd logDir :
  getRecentSessions JSON_parse path_join fs cwd logDir 0
  = getRecentSessions JSON_parse path_join fs cwd logDir 1.
Proof.
  unfold getRecentSessions, scan.
  destruct (readdir fs _) as [dates|e]; [|done].
  by rewrite visit_dates_first.
Qed.

Lemma first_line_no_LF (s : string) : has_LF (first_line s) = false.
Proof.
  unfold first_line. induction s as [|c s IH]; simpl; [done|].
  destruct (Ascii.eqb c LF) eqn:Hc; simpl; [done|].
  destruct (split_lines_cons s) as (l & ls & Hl). rewrite Hl in *.
  simpl in *. by rewrite Hc, IH.
Qed.

(** X21. [readFirstLine] resolves with the text that precedes the first
    line feed of the file (the whole text when there is none, the empty
    string for an empty file), in however many chunks the stream
    delivers the file; the result holds no line feed. A path that is
    not a file makes it fail with the error of the stream. *)
Theorem X21_readFirstLine_is_the_first_line fs filePath :
  (forall stream,
     readFirstLine_data "" stream = first_line (glue stream)
     /\ has_LF (readFirstLine_data "" stream) = false)
  /\ match fs !! filePath with
     | Some (File content) =>
         readFirstLine fs filePath = Ok (first_line content)
     | Some (Dir _) => readFirstLine fs filePath = Throw (EISDIR filePath)
     | None => readFirstLine fs filePath = Throw (ENOENT filePath)
     end.
Proof.
  split.
  - intros stream. rewrite readFirstLine_data_glue. simpl.
    split; [done | apply first_line_no_LF].
  - destruct (fs !! filePath) as [[content|names]|] eqn:Hp.
    + by apply readFirstLine_first_line.
    + unfold readFirstLine, createReadStream, readFile. by rewrite Hp.
    + unfold readFirstLine, createReadStream, readFile. by rewrite Hp.
Qed.

Lemma visit_file_sound fs limit logsPath date sessions file :
  Forall (from_log_file JSON_parse path_join fs logsPath) sessions ->
  Forall (from_log_file JSON_parse path_join fs logsPath)
    (sessions_of (visit_file JSON_parse path_join fs limit
                    (path_join logsPath date) sessions file)).
Proof.
  intros Hall. unfold visit_file.
  destruct (endsWith file ".log") eqn:Hlog; [|done].
  destruct (readFirstLine fs _) as [firstLine|e] eqn:Hread; [|done].
  destruct (truthy firstLine) eqn:Htruthy; [|done].
  destruct (JSON_parse firstLine) as [start|] eqn:Hparse; [|done].
  destruct (prop start "type") as [|ty] eqn:Hty; [done|].
  destruct (strict_eq_string ty "session_start") eqn:Hstart; [|done].
  apply strict_eq_string_spec in Hstart as ->.
  apply readFirstLine_Ok in Hread as (content & Hfile & ->).
  assert (Forall (from_log_file JSON_parse path_join fs logsPath)
            (sessions ++
             [mkSession
                match prop start "sessionId" with Value v => v | TypeError => None end
                match prop start "command" with Value v => v | TypeError => None end
                match prop start "args" with Value v => v | TypeError => None end
                match prop start "timestamp" with Value v => v | TypeError => None end
                (path_join (path_join logsPath date) file)])) as Hnew.
  { apply Forall_app. split; [done|]. apply Forall_singleton.
    exists date, file, content, start. simpl.
    split_and!; try done; by eapply prop_of_object. }
  by destruct (decide _).
Qed.

Lemma visit_files_sound fs limit logsPath date sessions files :
  Forall (from_log_file JSON_parse path_join fs logsPath) sessions ->
  Forall (from_log_file JSON_parse path_join fs logsPath)
    (sessions_of (visit_files JSON_parse path_join fs limit
                    (path_join logsPath date) sessions files)).
Proof.
  revert sessions. induction files as [|file files IH]; intros sessions Hall;
    simpl; [done|].
  pose proof (visit_file_sound fs limit logsPath date sessions file Hall) as H1.
  destruct (visit_file _ _ _ _ _ _ _); simpl in *; auto.
Qed.

Lemma visit_dates_sound fs limit logsPath sessions dates :
  Forall (from_log_file JSON_parse path_join fs logsPath) sessions ->
  Forall (from_log_file JSON_parse path_join fs logsPath)
    (sessions_of (visit_dates JSON_parse path_join fs limit logsPath
                    sessions dates)).
Proof.
  revert sessions. induction dates as [|date dates IH]; intros sessions Hall;
    simpl; [done|].
  assert (Forall (from_log_file JSON_parse path_join fs logsPath)
            (sessions_of (visit_date JSON_parse path_join fs limit logsPath
                            sessions date))) as H1.
  { unfold visit_date. destruct (readdir fs _); [|done].
    by apply visit_files_sound. }
  destruct (visit_date _ _ _ _ _ _ _); simpl in *; auto.
Qed.

Lemma getRecentSessions_scan fs cwd logDir limit index :
  getRecentSessions JSON_parse path_join fs cwd logDir limit = Ok index ->
  index = sessions_of (scan JSON_parse path_join fs limit
                         (logs_path path_join cwd logDir)).
Proof.
  unfold getRecentSessions.
  destruct (scan _ _ _ _ _); simpl; repeat case_match; by intros [= <-].
Qed.

(** X18. Every session [getRecentSessions] returns stands for a file
    that is there: its [logFile] is [<logsPath>/<date>/<file>] with a
    file name ending in [.log], the path names a regular file whose
    first line is not empty and parses to something of type
    'session_start', and the [sessionId], [command], [args] and
    [timestamp] of the session are the properties of that first line. *)
Theorem X18_index_entries_are_session_files fs cwd logDir limit index :
  getRecentSessions JSON_parse path_join fs cwd logDir limit = Ok index ->
  Forall (from_log_file JSON_parse path_join fs (logs_path path_join cwd logDir))
    index.
Proof.
  intros ->%getRecentSessions_scan. unfold scan.
  destruct (readdir fs _) as [dates|e]; [|done].
  by apply visit_dates_sound.
Qed.

(** X22. In a log directory that can be read throughout (a directory
    of directories whose [*.log] entries are regular files, every name
    listed once), [getRecentSessions] returns the most recent sessions,
    the most recent first: its sessions stand, one for one and in
    order, for files listed in the directory whose names are strictly
    descending by date and then by file name; they are at most [limit]
    (one for a limit of 0); and every listed file that holds a session
    and is not among them is older by name than all of them, which then
    are as many as the limit allows. *)
Theorem X22_index_is_the_most_recent fs cwd logDir limit index dates :
  log_tree path_join fs (logs_path path_join cwd logDir) dates ->
  getRecentSessions JSON_parse path_join fs cwd logDir limit = Ok index ->
  exists keys,
    Forall2 (stands_for JSON_parse path_join fs (logs_path path_join cwd logDir))
      keys index
    /\ Forall (listed path_join fs (logs_path path_join cwd logDir)) keys
    /\ StronglySorted newer keys
    /\ (length index <= max 1 limit)%nat
    /\ forall k,
         listed path_join fs (logs_path path_join cwd logDir) k ->
         session_file JSON_parse path_join fs (logs_path path_join cwd logDir) k ->
         k ∈ keys
         \/ (length index = max 1 limit /\ Forall (fun k' => newer k' k) keys).
Proof. apply index_most_recent. Qed.

(** Reversal of strings. *)
Lemma rev_app_app (a b c : string) :
  String.rev_app (a +:+ b) c = String.rev_app b (String.rev_app a c).
Proof.
  revert c. induction a as [|x a IH]; intros c; [done|].
  rewrite append_cons. simpl. by rewrite IH.
Qed.

Lemma rev_append (a b : string) :
  String.rev (a +:+ b) = String.rev b +:+ String.rev a.
Proof.
  unfold String.rev. by rewrite rev_app_app, rev_app_append.
Qed.

Lemma rev_app_rev_app (a b c : string) :
  String.rev_app (String.rev_app a b) c = String.rev_app b (a +:+ c).
Proof.
  revert b. induction a as [|x a IH]; intros b; [done|].
  simpl. by rewrite IH.
Qed.

Lemma rev_rev (s : string) : String.rev (String.rev s) = s.
Proof.
  unfold String.rev. rewrite rev_app_rev_app. simpl. apply append_empty_r.
Qed.

Lemma last_char_snoc (s : string) (c : ascii) :
  last_char s = Some c -> exists b, s = b +:+ String c "".
Proof.
  induction s as [|x s IH]; [done|]. destruct s as [|y s].
  - intros [= ->]. by exists "".
  - intros Hl. destruct (IH Hl) as (b & Hb). exists (String x b).
    by rewrite append_cons, <- Hb.
Qed.

Lemma last_char_app (a b : string) :
  b <> "" -> last_char (a +:+ b) = last_char b.
Proof.
  intros Hb. induction a as [|x a IH]; [done|].
  rewrite append_cons. destruct (a +:+ b) as [|y r] eqn:Hab.
  - by destruct a, b.
  - by rewrite <- IH.
Qed.

Lemma solid_not_space (c : ascii) :
  solid c = true -> Ascii.is_space c = false.
Proof.
  unfold solid. intros [H _]%andb_true_iff. by apply negb_true_iff in H.
Qed.

(** A byte below 128 is no part of a white space of several bytes. *)
Lemma wide_space2_low (a b : ascii) :
  (N_of_ascii a < 128)%N ->
  wide_space2 a b = false /\ wide_space2 b a = false.
Proof.
  intros Ha. unfold wide_space2.
  assert (forall k, (128 <= k)%N -> (N_of_ascii a =? k)%N = false) as E
    by (intros k Hk; apply N.eqb_neq; lia).
  rewrite !E by lia. by rewrite andb_false_r.
Qed.

Lemma wide_space3_low (a b c : ascii) :
  (N_of_ascii a < 128)%N ->
  wide_space3 a b c = false /\ wide_space3 c b a = false.
Proof.
  intros Ha. unfold wide_space3.
  assert (forall k, (128 <= k)%N -> (N_of_ascii a =? k)%N = false) as E
    by (intros k Hk; apply N.eqb_neq; lia).
  assert ((128 <=? N_of_ascii a)%N = false) as E'
    by (apply N.leb_gt; lia).
  rewrite !E by lia. rewrite E'. simpl.
  by rewrite !andb_false_r.
Qed.

(** The trimming stops at a character of ASCII that is not white
    space, from either end. *)
Lemma strip_solid (back : bool) (c : ascii) (rest : string) :
  solid c = true -> strip back (String c rest) = String c rest.
Proof.
  intros Hc. pose proof (solid_not_space c Hc) as Hs.
  unfold solid in Hc. apply andb_true_iff in Hc as [_ Hc%N.ltb_lt].
  cbn [strip]. rewrite Hs.
  destruct rest as [|c2 [|c3 rest]]; [done|..];
    destruct (wide_space2_low c c2 Hc) as [-> ->]; [by destruct back|].
  destruct (wide_space3_low c c2 c3 Hc) as [-> ->]. by destruct back.
Qed.

Lemma strip_space (back : bool) (c : ascii) (rest : string) :
  Ascii.is_space c = true -> strip back (String c rest) = strip back rest.
Proof. intros Hc. cbn [strip]. by rewrite Hc. Qed.

(** [trim] takes the line feed from the end of a text that starts and
    ends on a character of ASCII that is not white space, and nothing
    more. *)
Lemma trim_line_feed (body : string) (c1 c2 : ascii) :
  first_char body = Some c1 -> solid c1 = true ->
  last_char body = Some c2 -> solid c2 = true ->
  trim (body +:+ String LF "") = body.
Proof.
  intros Hf H1 Hl H2. unfold trim, trimEnd, trimStart.
  assert (strip false (body +:+ String LF "") = body +:+ String LF "") as ->.
  { destruct body as [|x body]; [done|]. simpl in Hf. simplify_eq.
    rewrite append_cons. by apply strip_solid. }
  rewrite rev_append.
  destruct (last_char_snoc body c2 Hl) as (b & ->).
  rewrite rev_append.
  assert (strip true (String.rev (String LF "") +:+ String.rev (String c2 "")
                        +:+ String.rev b)
          = String.rev (String c2 "") +:+ String.rev b) as ->.
  { change (String.rev (String LF "") +:+ String.rev (String c2 "")
              +:+ String.rev b) with (String LF (String c2 (String.rev b))).
    rewrite strip_space by done. by apply strip_solid. }
  by rewrite <- rev_append, rev_rev.
Qed.

Lemma log_text_join (lines : list string) :
  lines <> [] ->
  log_text lines = JS.join (String LF "") lines +:+ String LF "".
Proof.
  induction lines as [|x [|y r] IH]; [done|done|]. intros _.
  change (log_text (x :: y :: r)) with (x +:+ String LF (log_text (y :: r))).
  rewrite IH by done.
  change (JS.join (String LF "") (x :: y :: r))
    with (x +:+ String LF "" +:+ JS.join (String LF "") (y :: r)).
  by rewrite !append_assoc.
Qed.

Lemma join_starts (line : string) (lines : list string) (c : ascii) :
  first_char line = Some c ->
  first_char (JS.join (String LF "") (line :: lines)) = Some c.
Proof.
  destruct line as [|x line]; [done|]. intros [= ->]. by destruct lines.
Qed.

Lemma join_ends (lines : list string) :
  lines <> [] -> Forall tidy lines ->
  exists c, last_char (JS.join (String LF "") lines) = Some c
            /\ solid c = true.
Proof.
  induction lines as [|x [|y r] IH]; [done| |]; intros _ Hall.
  - by apply Forall_cons in Hall as [(_ & _ & Hx) _].
  - apply Forall_cons in Hall as [_ Hall].
    destruct (IH ltac:(done) Hall) as (c & Hc & Hs). exists c. split; [|done].
    change (JS.join (String LF "") (x :: y :: r))
      with (x +:+ String LF (JS.join (String LF "") (y :: r))).
    rewrite last_char_app by done.
    destruct (JS.join (String LF "") (y :: r)); [done|]. exact Hc.
Qed.

Lemma split_lines_line (line : string) :
  has_LF line = false -> split_lines line = [line].
Proof.
  induction line as [|x line IH]; simpl; [done|].
  destruct (Ascii.eqb x LF); simpl; [done|]. intros Hl. by rewrite IH.
Qed.

Lemma split_lines_app (line rest : string) :
  has_LF line = false ->
  split_lines (line +:+ String LF rest) = line :: split_lines rest.
Proof.
  induction line as [|x line IH]; intros Hl.
  - done.
  - rewrite append_cons. simpl in *.
    destruct (Ascii.eqb x LF); simpl in *; [done|]. by rewrite IH.
Qed.

Lemma split_lines_join (lines : list string) :
  lines <> [] -> Forall (fun line => has_LF line = false) lines ->
  split_lines (JS.join (String LF "") lines) = lines.
Proof.
  induction lines as [|x [|y r] IH]; [done| |]; intros _ Hall.
  - apply Forall_cons in Hall as [Hx _]. by apply split_lines_line.
  - apply Forall_cons in Hall as [Hx Hall].
    change (JS.join (String LF "") (x :: y :: r))
      with (x +:+ String LF (JS.join (String LF "") (y :: r))).
    rewrite split_lines_app by done. by rewrite IH.
Qed.

Lemma lines_read_back (lines : list string) :
  lines <> [] -> Forall tidy lines ->
  split_lines (trim (log_text lines)) = lines.
Proof.
  intros Hne Hall. rewrite log_text_join by done.
  destruct (join_ends lines Hne Hall) as (c2 & Hl & H2).
  destruct lines as [|line lines]; [done|].
  pose proof Hall as [(_ & (c1 & Hf & H1) & _) _]%Forall_cons.
  rewrite (trim_line_feed _ c1 c2); [|by apply join_starts|done..].
  apply split_lines_join; [done|].
  eapply Forall_impl; [exact Hall|]. by intros l (Hl' & _).
Qed.

(** X20. [viewLog] reads a log back line by line: when the file of the
    session holds the lines that [writeLog] appended, each followed by
    its line feed, none holding a line feed and each starting and
    ending on a character of ASCII that is not white space (as the
    texts of [JSON.stringify] of an object do), then trimming and splitting
    gives exactly those lines (the line feed after the last one makes
    no empty line), and [viewLog] returns [JSON.parse] of each of
    them, in the order written. *)
Theorem X20_viewLog_reads_back fs cwd sid logDir index session lines :
  getRecentSessions JSON_parse path_join fs cwd
    (Some (logs_path path_join cwd logDir)) 100 = Ok index ->
  find_session sid index = Some session ->
  readFile fs (LogReader.logFile session) = Ok (log_text lines) ->
  lines <> [] ->
  Forall tidy lines ->
  split_lines (trim (log_text lines)) = lines
  /\ viewLog JSON_parse path_join fs cwd sid logDir
     = Ok (omap JSON_parse lines).
Proof.
  intros Hidx Hfind Hread Hne Hall.
  pose proof (lines_read_back lines Hne Hall) as Hback. split; [done|].
  unfold viewLog. rewrite Hidx, Hfind, Hread.
  by rewrite Hback, collect_logs_omap.
Qed.

End ReaderMore.

Lemma X17_missing_log_directory_witness :
  getRecentSessions Archive.parse Archive.path_join ∅ Archive.cwd None 10
  = Ok [].
Proof.
  exact (proj1 (X17_missing_log_directory Archive.parse Archive.path_join
                  ∅ Archive.cwd None 10 "1737450000000-4242" eq_refl)).
Defined.

Lemma X18_index_entries_are_session_files_witness :
  exists index,
    getRecentSessions Archive.parse Archive.path_join Archive.disk Archive.cwd
      None 2 = Ok index
    /\ length index = 2
    /\ Forall (from_log_file Archive.parse Archive.path_join Archive.disk
                 Archive.root) index.
Proof.
  destruct (getRecentSessions Archive.parse Archive.path_join Archive.disk
              Archive.cwd None 2) as [index|e] eqn:Hidx;
    [|vm_compute in Hidx; discriminate].
  exists index. split; [reflexivity|].
  split; [vm_compute in Hidx; by injection Hidx as <-|].
  exact (X18_index_entries_are_session_files Archive.parse Archive.path_join
           Archive.disk Archive.cwd None 2 index Hidx).
Defined.

Lemma X22_index_is_the_most_recent_witness :
  exists keys index,
    getRecentSessions Archive.parse Archive.path_join Archive.disk Archive.cwd
      None 2 = Ok index
    /\ Forall2 (stands_for Archive.parse Archive.path_join Archive.disk
                  Archive.root) keys index
    /\ length keys = 2%nat
    /\ StronglySorted newer keys
    /\ Forall (fun k' => newer k' (Archive.day, Archive.file_name 0)) keys.
Proof.
  destruct (getRecentSessions Archive.parse Archive.path_join Archive.disk
              Archive.cwd None 2) as [index|e] eqn:Hidx;
    [|vm_compute in Hidx; discriminate].
  destruct (X22_index_is_the_most_recent Archive.parse Archive.path_join
              Archive.disk Archive.cwd None 2 index [Archive.day]
              Archive_tree Hidx)
    as (keys & Hall & _ & Hsorted & _ & Hrest).
  change (logs_path Archive.path_join Archive.cwd None) with Archive.root in *.
  exists keys, index. split; [done|]. split; [done|].
  destruct (Hrest _ (proj1 Archive_oldest) (proj2 Archive_oldest))
    as [Hin|[Hlen Hnewer]].
  - exfalso.
    destruct (Forall2_elem_of_l _ _ _ _ Hall Hin) as (s & Hs & Hfile & _).
    assert (log_path Archive.path_join Archive.root
              (Archive.day, Archive.file_name 0) ∉ logFile <$> index) as Hno.
    { vm_compute in Hidx. injection Hidx as <-.
      apply (bool_decide_unpack _). by vm_compute. }
    apply Hno. rewrite <- Hfile. by apply list_elem_of_fmap_2.
  - split; [by rewrite (Forall2_length _ _ _ Hall)|].
    split; [exact Hsorted | exact Hnewer].
Defined.

Lemma X20_viewLog_reads_back_witness :
  let lines :=
    [Archive.stringify [("type", "session_start"); ("sessionId", Archive.id 1);
                        ("command", "echo")];
     Archive.stringify [("type", "stdout"); ("data", "hello")];
     "{" +:+ Archive.quoted "type" +:+ ":" +:+ String Archive.DQ "std";
     Archive.stringify [("type", "session_end"); ("signal", "none")]] in
  Archive.file_content 1 = log_text lines
  /\ split_lines (trim (log_text lines)) = lines
  /\ viewLog Archive.parse Archive.path_join Archive.disk Archive.cwd
       (Archive.id 1) None
     = Ok (omap Archive.parse lines).
Proof.
  intros lines.
  destruct (getRecentSessions Archive.parse Archive.path_join Archive.disk
              Archive.cwd
              (Some (logs_path Archive.path_join Archive.cwd None)) 100)
    as [index|e] eqn:Hidx; [|vm_compute in Hidx; discriminate].
  destruct (find_session (Archive.id 1) index) as [session|] eqn:Hfind;
    [|vm_compute in Hidx; injection Hidx as <-; vm_compute in Hfind;
      discriminate].
  split; [by vm_compute|].
  apply (X20_viewLog_reads_back Archive.parse Archive.path_join Archive.disk
           Archive.cwd (Archive.id 1) None index session lines Hidx Hfind).
  - vm_compute in Hidx. injection Hidx as <-. vm_compute in Hfind.
    injection Hfind as <-. by vm_compute.
  - done.
  - repeat (apply Forall_cons_2;
              [split; [reflexivity|]; split; eexists; split; reflexivity|]).
    apply Forall_nil_2.
Defined.
